(** * Vector clocks over an RPC exchange: vector_clock.py and server.py

    A shallow embedding of the [VectorClock] class (vector_clock.py) and of
    the request handler [RpcHandler.do_POST] (server.py), followed by the
    properties of the specification that concern them.

    Conventions of the embedding:
    - a Python [int] is a [Z]; a Python [float] is a binary64 value, a
      [spec_float] at precision 53 and maximal exponent 1024;
    - a clock's [dict] of counters is a [gmap string Z]: Python compares
      dicts regardless of insertion order, and so does [=] on [gmap];
    - a decoded JSON object is the list of its items in insertion order
      (keys pairwise distinct, as in any Python dict), because the order
      decides which conversion error is raised first;
    - [str] values are read over the ASCII repertoire; the conversions
      between [int] and decimal text have the interpreter's default limit
      of 4300 digits;
    - a raised exception is the [Raise] branch of [result]; the handler's
      effects (the class-level server clock, the text it prints) are
      threaded through an explicit state. *)

From Stdlib Require Import ZArith String Ascii List Bool Lia.
From Stdlib Require Import Floats.SpecFloat.
From stdpp Require Import gmap strings list fin_maps.

Local Open Scope Z_scope.

(** ** The Python values and builtins the two modules rely on *)

Module Py.

(** The exception classes that the embedded code can raise. *)
Inductive exn : Set :=
  | TypeError
  | ValueError
  | OverflowError
  | AttributeError
  | KeyError.

Inductive result (A : Type) : Type :=
  | Ok (a : A)
  | Raise (e : exn).
Arguments Ok {A} a.
Arguments Raise {A} e.

Definition bind {A B} (r : result A) (k : A -> result B) : result B :=
  match r with
  | Ok a => k a
  | Raise e => Raise e
  end.

Definition raises {A} (r : result A) : bool :=
  match r with Ok _ => false | Raise _ => true end.

(** What [json.loads] returns. *)
#[warnings="-register-all"]
Inductive value : Type :=
  | JNull
  | JBool (b : bool)
  | JInt (z : Z)
  | JFloat (f : spec_float)
  | JStr (s : string)
  | JList (l : list value)
  | JDict (items : list (string * value)).

Definition is_zero_float (f : spec_float) : bool :=
  match f with S754_zero _ => true | _ => false end.

(** Truth value of an object, as tested by [if not payload]. *)
Definition truthy (v : value) : bool :=
  match v with
  | JNull => false
  | JBool b => b
  | JInt z => negb (z =? 0)
  | JFloat f => negb (is_zero_float f)
  | JStr s => negb (String.eqb s "")
  | JList l => match l with [] => false | _ => true end
  | JDict d => match d with [] => false | _ => true end
  end.

(** [key in d] and [d[key]] on a dict. *)
Fixpoint dict_get (key : string) (d : list (string * value)) : option value :=
  match d with
  | [] => None
  | (k, v) :: rest => if String.eqb k key then Some v else dict_get key rest
  end.

Definition dict_has (key : string) (d : list (string * value)) : bool :=
  match dict_get key d with Some _ => true | None => false end.

Definition keys (d : list (string * value)) : list string := map fst d.

(** *** Text of numbers *)

(** The whitespace that [int] and [float] strip from an ASCII [str]: the
    codes 9 to 13 and the space. *)
Definition is_space (c : ascii) : bool :=
  let n := nat_of_ascii c in
  (Nat.leb 9 n && Nat.leb n 13) || Nat.eqb n 32.

Fixpoint lstrip (s : list ascii) : list ascii :=
  match s with
  | c :: r => if is_space c then lstrip r else s
  | [] => []
  end.

Definition strip (s : list ascii) : list ascii :=
  rev (lstrip (rev (lstrip s))).

Definition digit_val (c : ascii) : option Z :=
  let n := nat_of_ascii c in
  if Nat.leb 48 n && Nat.leb n 57 then Some (Z.of_nat (n - 48)) else None.

Definition is_char (c : ascii) (code : nat) : bool :=
  Nat.eqb (nat_of_ascii c) code.

(** The rest of a digit part [digit (["_"] digit)*] once its first digit
    has been read: the value so far, the number of digits so far, and
    the remaining text. *)
Fixpoint digits_from (acc : Z) (count : Z) (s : list ascii) : Z * Z * list ascii :=
  match s with
  | c :: r =>
      match digit_val c with
      | Some d => digits_from (10 * acc + d) (count + 1) r
      | None =>
          if is_char c 95 then
            match r with
            | c2 :: r2 =>
                match digit_val c2 with
                | Some d => digits_from (10 * acc + d) (count + 1) r2
                | None => (acc, count, s)
                end
            | [] => (acc, count, s)
            end
          else (acc, count, s)
      end
  | [] => (acc, count, s)
  end.

Definition digitpart (s : list ascii) : option (Z * Z * list ascii) :=
  match s with
  | c :: r =>
      match digit_val c with
      | Some d => Some (digits_from d 1 r)
      | None => None
      end
  | [] => None
  end.

(** An optional sign: [true] for a minus. *)
Definition sign (s : list ascii) : bool * list ascii :=
  match s with
  | c :: r =>
      if is_char c 45 then (true, r)
      else if is_char c 43 then (false, r)
      else (false, s)
  | [] => (false, s)
  end.

(** [sys.get_int_max_str_digits()], at its default: the number of digits
    above which the interpreter refuses to convert between [int] and
    decimal text. *)
Definition max_str_digits : Z := 4300.

(** [int(s)] for a [str], base 10; the sign and the underscores do not
    count as digits. *)
Definition int_of_str (s : string) : result Z :=
  let '(neg, body) := sign (strip (list_ascii_of_string s)) in
  match digitpart body with
  | Some (n, count, []) =>
      if max_str_digits <? count then Raise ValueError
      else Ok (if neg then - n else n)
  | _ => Raise ValueError
  end.

(** *** Floats: binary64 *)

Definition prec : Z := 53.
Definition emax : Z := 1024.

(** [int(f)] for a [float]: truncation toward zero. *)
Definition int_of_float (f : spec_float) : result Z :=
  match f with
  | S754_zero _ => Ok 0
  | S754_infinity _ => Raise OverflowError
  | S754_nan => Raise ValueError
  | S754_finite s m e =>
      let magnitude :=
        if 0 <=? e then Z.shiftl (Zpos m) e else Z.shiftr (Zpos m) (- e) in
      Ok (if s then - magnitude else magnitude)
  end.

(** [f.is_integer()]. *)
Definition is_integer (f : spec_float) : bool :=
  match f with
  | S754_zero _ => true
  | S754_finite _ m e =>
      (0 <=? e) || (Z.land (Zpos m) (Z.ones (- e)) =? 0)
  | _ => false
  end.

(** [float(z)] for an [int]: the nearest binary64, ties to even. *)
Definition float_of_int (z : Z) : result spec_float :=
  match binary_normalize prec emax z 0 false with
  | S754_infinity _ => Raise OverflowError
  | f => Ok f
  end.

(** The binary64 nearest to [(-1)^neg * n * 10^k]. *)
Definition float_of_decimal (neg : bool) (n : Z) (k : Z) : spec_float :=
  match n with
  | Zpos p =>
      if 0 <=? k then binary_normalize prec emax ((if neg then - n else n) * 10 ^ k) 0 false
      else
        match 10 ^ (- k) with
        | Zpos q => SFdiv prec emax (S754_finite neg p 0) (S754_finite false q 0)
        | _ => S754_nan
        end
  | _ => S754_zero neg
  end.

Definition lower (c : ascii) : ascii :=
  let n := nat_of_ascii c in
  if Nat.leb 65 n && Nat.leb n 90 then ascii_of_nat (n + 32) else c.

Definition is_word (s : list ascii) (w : string) : bool :=
  String.eqb (string_of_list_ascii (map lower s)) w.

(** After the mantissa: an optional exponent, then the end of the text. *)
Definition exponent (s : list ascii) : option Z :=
  match s with
  | [] => Some 0
  | c :: r =>
      if is_char (lower c) 101 then
        let '(neg, body) := sign r in
        match digitpart body with
        | Some (x, _, []) => Some (if neg then - x else x)
        | _ => None
        end
      else None
  end.

(** [float(s)] for a [str]. *)
Definition float_of_str (s : string) : result spec_float :=
  let '(neg, body) := sign (strip (list_ascii_of_string s)) in
  if is_word body "inf" || is_word body "infinity" then Ok (S754_infinity neg)
  else if is_word body "nan" then Ok S754_nan
  else
    let '(whole, after_whole) :=
      match digitpart body with
      | Some (n, _, r) => (Some n, r)
      | None => (None, body)
      end in
    let '(frac, after_frac) :=
      match after_whole with
      | c :: r =>
          if is_char c 46 then
            match digitpart r with
            | Some (n, count, r') => (Some (n, count), r')
            | None => (None, r)
            end
          else (None, after_whole)
      | [] => (None, after_whole)
      end in
    match whole, frac with
    | None, None => Raise ValueError
    | _, _ =>
        let '(f, count) := default (0, 0) frac in
        match exponent after_frac with
        | Some x => Ok (float_of_decimal neg (default 0 whole * 10 ^ count + f) (x - count))
        | None => Raise ValueError
        end
    end.

(** [int(v)], as applied to a decoded JSON value. *)
Definition int (v : value) : result Z :=
  match v with
  | JInt z => Ok z
  | JBool b => Ok (if b then 1 else 0)
  | JFloat f => int_of_float f
  | JStr s => int_of_str s
  | JNull | JList _ | JDict _ => Raise TypeError
  end.

End Py.

Import Py.

(** ** vector_clock.py *)

Module vector_clock.

(** An instance of the class: [self.node_id] and [self.clock]. *)
Record VectorClock : Type := {
  node_id : string;
  clock : gmap string Z
}.

(** [VectorClock(node_id, all_nodes)]; [all_nodes] defaults to [None],
    and an empty list is as false as [None]. *)
Definition __init__ (node_id : string) (all_nodes : option (list string)) : VectorClock :=
  {| node_id := node_id;
     clock :=
       match all_nodes with
       | Some (node :: nodes) => foldl (fun c node => <[node := 0]> c) ∅ (node :: nodes)
       | _ => <[node_id := 0]> ∅
       end |}.

(** [self.increment(node_id)]; [None] stands for the omitted argument. *)
Definition increment (self : VectorClock) (node : option string) : VectorClock :=
  let node := default (node_id self) node in
  let c :=
    match clock self !! node with
    | None => <[node := 0]> (clock self)
    | Some _ => clock self
    end in
  {| node_id := node_id self;
     clock := <[node := default 0 (c !! node) + 1]> c |}.

(** One turn of the loop of [update]. *)
Definition update_step (node : string) (value : Z) (c : gmap string Z) : gmap string Z :=
  let c :=
    match c !! node with
    | None => <[node := 0]> c
    | Some _ => c
    end in
  <[node := Z.max (default 0 (c !! node)) value]> c.

(** [self.update(other_clock)]. The loop visits every item of the other
    clock once; its labels being distinct, the order of the visit does not
    show in the result ([update_lookup] below). *)
Definition update (self other_clock : VectorClock) : VectorClock :=
  {| node_id := node_id self;
     clock := map_fold update_step (clock self) (clock other_clock) |}.

(** One turn of the loop of [compare], on the pair
    [(self_greater, other_greater)]. *)
Definition compare_step (self other_clock : VectorClock) (node : string)
    (flags : bool * bool) : bool * bool :=
  let self_val := default 0 (clock self !! node) in
  let other_val := default 0 (clock other_clock !! node) in
  if other_val <? self_val then (true, snd flags)
  else if self_val <? other_val then (fst flags, true)
  else flags.

(** [self.compare(other_clock)], for an [other_clock] that is a
    [VectorClock] (the [isinstance] test passes). *)
Definition compare (self other_clock : VectorClock) : string :=
  let all_nodes : gset string := dom (clock self) ∪ dom (clock other_clock) in
  let '(self_greater, other_greater) :=
    set_fold (compare_step self other_clock) (false, false) all_nodes in
  if self_greater && negb other_greater then "happens-after"
  else if other_greater && negb self_greater then "happens-before"
  else if negb self_greater && negb other_greater then "equal"
  else "concurrent".

(** [self.to_dict()]: a copy of the counters. *)
Definition to_dict (self : VectorClock) : gmap string Z := clock self.

(** The comprehension [{k: int(v) for k, v in data.items()}]. *)
Fixpoint int_items (items : list (string * value)) (acc : gmap string Z)
    : result (gmap string Z) :=
  match items with
  | [] => Ok acc
  | (k, v) :: rest => bind (int v) (fun z => int_items rest (<[k := z]> acc))
  end.

(** [VectorClock.from_dict(data, node_id)]; [data.items()] exists on a
    dict only. *)
Definition from_dict (data : value) (node_id : string) : result VectorClock :=
  let vc := __init__ node_id None in
  match data with
  | JDict items =>
      bind (int_items items ∅) (fun c =>
        Ok {| node_id := vector_clock.node_id vc; clock := c |})
  | _ => Raise AttributeError
  end.

(** [self == other] between two instances. *)
Definition __eq__ (self other : VectorClock) : bool :=
  bool_decide (clock self = clock other).

End vector_clock.

Import vector_clock.

(** ** server.py *)

Module server.

(** The [result] entry of an answer: an [int] or a [float]. *)
Inductive number : Type :=
  | NInt (z : Z)
  | NFloat (f : spec_float).

(** The [causality] entry of an answer. *)
Record causality : Type := {
  causality_server_clock : gmap string Z;
  causality_client_clock : option (gmap string Z);
  relationship : string
}.

(** The dict handed to [json_response]: an error, with the server clock
    on all but the first of them, or the answer of a route. *)
Inductive body : Type :=
  | Failure (error : string) (vector_clock : option (gmap string Z))
  | Answer (result : number) (vector_clock : gmap string Z) (causality : causality).

(** The arguments of a call [json_response(handler, status, payload)]. *)
Record response : Type := {
  status : Z;
  payload : body
}.

(** What a request can change: [RpcHandler.server_clock], the one clock
    object shared by all handler instances, and the exceptions reported
    by [print]. *)
Record state : Type := {
  server_clock : VectorClock;
  printed : list exn
}.

(** [float(v) if isinstance(v, (int, float, str)) else None]; [bool] is
    a subclass of [int]. *)
Definition operand (v : value) : Py.result (option spec_float) :=
  match v with
  | JBool b => bind (float_of_int (if b then 1 else 0)) (fun f => Ok (Some f))
  | JInt z => bind (float_of_int z) (fun f => Ok (Some f))
  | JFloat f => Ok (Some f)
  | JStr s => bind (float_of_str s) (fun f => Ok (Some f))
  | JNull | JList _ | JDict _ => Ok None
  end.

(** [validate_operands(payload)]: [inl message] for [(False, message)],
    [inr (x_val, y_val)] for [(True, (x_val, y_val))]. The [except]
    clause catches [TypeError] and [ValueError] only. *)
Definition validate_operands (payload : value)
    : Py.result (string + spec_float * spec_float) :=
  match payload with
  | JDict d =>
      match dict_get "x" d, dict_get "y" d with
      | Some x, Some y =>
          let converted :=
            bind (operand x) (fun x_val =>
            bind (operand y) (fun y_val => Ok (x_val, y_val))) in
          match converted with
          | Raise TypeError | Raise ValueError => Ok (inl "'x' and 'y' must be numbers")
          | Raise e => Raise e
          | Ok (Some x_val, Some y_val) => Ok (inr (x_val, y_val))
          | Ok _ => Ok (inl "'x' and 'y' must be numbers")
          end
      | _, _ => Ok (inl "Missing 'x' or 'y' in request body")
      end
  | _ => Ok (inl "Invalid JSON body")
  end.

(** ["vector_clock" in payload]: a key of a dict, an element of a list,
    a substring of a str; not defined on the other values. *)
Definition contains (key : string) (payload : value) : Py.result bool :=
  match payload with
  | JDict d => Ok (dict_has key d)
  | JList l =>
      Ok (existsb (fun v => match v with JStr s => String.eqb s key | _ => false end) l)
  | JStr s => Ok (match String.index 0 key s with Some _ => true | None => false end)
  | _ => Raise TypeError
  end.

(** [payload["vector_clock"]]. *)
Definition getitem (payload : value) (key : string) : Py.result value :=
  match payload with
  | JDict d =>
      match dict_get key d with
      | Some v => Ok v
      | None => Raise KeyError
      end
  | _ => Raise TypeError
  end.

(** The [try] block of [do_POST]: import the client clock, merge it into
    the server clock; any exception is printed and leaves
    [client_clock] at [None]. *)
Definition receive_clock (payload : value) (st : state) : option VectorClock * state :=
  match bind (getitem payload "vector_clock") (fun d => from_dict d "client") with
  | Ok client_clock =>
      (Some client_clock,
       {| server_clock := update (server_clock st) client_clock;
          printed := printed st |})
  | Raise e =>
      (None, {| server_clock := server_clock st; printed := printed st ++ [e] |})
  end.

(** The body shared by the [/add] and [/multiply] branches, which differ
    by the operation only. *)
Definition route (op : spec_float -> spec_float -> spec_float) (payload : value)
    (client_clock : option VectorClock) (server : VectorClock) : Py.result response :=
  bind (validate_operands payload) (fun checked =>
    match checked with
    | inl data =>
        Ok {| status := 400; payload := Failure data (Some (to_dict server)) |}
    | inr (x_val, y_val) =>
        let result := op x_val y_val in
        bind (if is_integer result
              then bind (int_of_float result) (fun z => Ok (NInt z))
              else Ok (NFloat result)) (fun result =>
        Ok {| status := 200;
              payload :=
                Answer result (to_dict server)
                  {| causality_server_clock := to_dict server;
                     causality_client_clock := option_map to_dict client_clock;
                     relationship :=
                       match client_clock with
                       | Some c => compare server c
                       | None => "no_client_clock"
                       end |} |})
    end).

(** [RpcHandler.do_POST], for a request on [path] whose body
    [parse_json] turned into [payload] ([JNull] for [None]), up to the
    call of [json_response] that it reaches: the result is the status and
    the dict handed to [json_response], or the exception raised before
    the call. [do_POST_sent] below adds what [json_response] does. *)
Definition do_POST (path : string) (payload : value) (st : state)
    : state * Py.result response :=
  if negb (truthy payload) then
    (st, Ok {| status := 400; payload := Failure "Invalid JSON" None |})
  else
    match contains "vector_clock" payload with
    | Raise e => (st, Raise e)
    | Ok has_clock =>
        let '(client_clock, st) :=
          if has_clock then receive_clock payload st else (None, st) in
        let st :=
          {| server_clock := increment (server_clock st) None;
             printed := printed st |} in
        let server := server_clock st in
        if String.eqb path "/add" then
          (st, route (SFadd prec emax) payload client_clock server)
        else if String.eqb path "/multiply" then
          (st, route (SFmul prec emax) payload client_clock server)
        else
          (st, Ok {| status := 404;
                     payload := Failure "Not found" (Some (to_dict server)) |})
    end.

(** [str(z)] as [json.dumps] runs it on an int: refused above
    [max_str_digits] digits. *)
Definition encodable (z : Z) : bool := Z.abs z <? 10 ^ max_str_digits.

Definition clock_ints (counters : gmap string Z) : list Z :=
  map snd (map_to_list counters).

(** The ints that the dict of a reply holds. *)
Definition body_ints (b : body) : list Z :=
  match b with
  | Failure _ None => []
  | Failure _ (Some counters) => clock_ints counters
  | Answer result counters c =>
      match result with NInt z => [z] | NFloat _ => [] end
      ++ clock_ints counters
      ++ clock_ints (causality_server_clock c)
      ++ match causality_client_clock c with
         | Some sent => clock_ints sent
         | None => []
         end
  end.

(** [json_response(handler, status, payload)]: [json.dumps] comes first
    and raises [ValueError] on an int it cannot write, before anything is
    sent; otherwise the reply goes out. The keys and the strs of the
    replies are always writable, and a float is written whatever it is;
    a failure of the connection while the reply is written is outside the
    model. *)
Definition json_response (r : response) : Py.result response :=
  if forallb encodable (body_ints (payload r)) then Ok r else Raise ValueError.

(** [RpcHandler.do_POST] to its end: the state it leaves, and the reply
    sent or the exception raised. *)
Definition do_POST_sent (path : string) (payload : value) (st : state)
    : state * Py.result response :=
  let '(st, reply) := do_POST path payload st in
  (st, bind reply json_response).

(** The class attribute [server_clock = VectorClock("server", ["server"])]
    and a silent console. *)
Definition initial : state :=
  {| server_clock := __init__ "server" (Some ["server"%string]); printed := [] |}.

End server.

Import server.

(** ** Values on the wire *)

(** The dicts of the two modules as [json.loads] returns them after
    [json.dumps]: the reply of [json_response] on the client's side, a
    clock's [to_dict()] on either side. The codec keeps ints, floats, strs
    and the nesting; a dict of counters comes out as a dict of ints, whose
    item order (here that of the map) no function of the source reads. *)
Module wire.

Definition of_clock (counters : gmap string Z) : value :=
  JDict (map (fun item => (fst item, JInt (snd item))) (map_to_list counters)).




End wire.

(** ** client.py *)

Module client.

(** An instance of [RpcClient], without the address and the timeout that
    only the transport reads. *)
Record RpcClient : Type := {
  client_id : string;
  vector_clock : VectorClock
}.

(** [RpcClient(client_id)]. *)
Definition __init__ (client_id : string) : RpcClient :=
  {| client_id := client_id;
     vector_clock := vector_clock.__init__ client_id (Some [client_id; "server"%string]) |}.

(** What [urlopen], [resp.read()] and [json.loads] leave to the rest of
    [call_rpc]: the decoded body of a reply, or one of the two exceptions
    that the method catches ([HTTPError] is what urllib raises on a status
    outside 200-299). The other failures of the transport, which the
    method lets through, are outside the model. *)
Inductive exchange : Type :=
  | Replied (data : value)
  | HTTPError
  | URLError.

(** [d[key] = v] on a dict: in place for a key already there, at the end
    for a new one. *)
Fixpoint setitem (key : string) (v : value) (d : list (string * value))
    : list (string * value) :=
  match d with
  | [] => [(key, v)]
  | (k, w) :: rest =>
      if String.eqb k key then (k, v) :: rest else (k, w) :: setitem key v rest
  end.

(** [call_rpc] up to the request: the increment, and the body that
    [json.dumps] encodes ([payload_with_clock]). *)
Definition prepare (self : RpcClient) (payload : list (string * value))
    : RpcClient * value :=
  let self :=
    {| client_id := client_id self;
       vector_clock := increment (vector_clock self) None |} in
  (self, JDict (setitem "vector_clock" (wire.of_clock (to_dict (vector_clock self))) payload)).








End client.

(** ** demo_vector_clocks.py *)

Module demo_vector_clocks.

(** One exchange of [simulate_rpc_with_vector_clocks], which the function
    writes out three times: the client increments, the server merges the
    client's clock and increments, the client merges the server's clock.
    The pair is the server clock and the client clock afterwards. *)
Definition exchange (server_clock client_clock : VectorClock) : VectorClock * VectorClock :=
  let client_clock := increment client_clock None in
  let server_clock := update server_clock client_clock in
  let server_clock := increment server_clock None in
  let client_clock := update client_clock server_clock in
  (server_clock, client_clock).

(** One turn of the loop over [events] in [simulate_distributed_system]:
    an event is a tuple of strings, [clocks] the dict of the clocks by
    node. Reading the clock of a node that is not a key raises
    [KeyError]. *)
Definition apply_event (clocks : gmap string VectorClock) (event : list string)
    : Py.result (gmap string VectorClock) :=
  match event with
  | [node; action] =>
      if String.eqb action "increment" then
        match clocks !! node with
        | Some c => Ok (<[node := increment c None]> clocks)
        | None => Raise KeyError
        end
      else Ok clocks
  | [sender; action; receiver] =>
      if String.eqb action "send_to" then
        match clocks !! sender with
        | Some c =>
            let sent := increment c None in
            let clocks := <[sender := sent]> clocks in
            match clocks !! receiver with
            | Some r => Ok (<[receiver := update r sent]> clocks)
            | None => Raise KeyError
            end
        | None => Raise KeyError
        end
      else Ok clocks
  | _ => Ok clocks
  end.

(** The loop over [events]. *)
Fixpoint run_events (clocks : gmap string VectorClock) (events : list (list string))
    : Py.result (gmap string VectorClock) :=
  match events with
  | [] => Ok clocks
  | event :: rest => bind (apply_event clocks event) (fun clocks => run_events clocks rest)
  end.

(** [clocks[node] = VectorClock(node, nodes)] for every node. *)
Definition initial_clocks (nodes : list string) : gmap string VectorClock :=
  foldl (fun clocks node => <[node := vector_clock.__init__ node (Some nodes)]> clocks)
    ∅ nodes.

(** The events of the demonstration. *)
Definition events : list (list string) :=
  [["node1"; "increment"]; ["node2"; "increment"]; ["node1"; "send_to"; "node3"];
   ["node3"; "increment"]; ["node2"; "send_to"; "node3"]; ["node3"; "increment"]]%string.

End demo_vector_clocks.

(** ** The specification's vocabulary *)

(** The counter of a label in a clock, an absent label reading as 0. *)
Definition counter (c : VectorClock) (L : string) : Z :=
  default 0 (clock c !! L).

(** Invariant 1 of the data model: every counter is at least 0. *)
Definition non_negative (c : VectorClock) : Prop :=
  map_Forall (fun _ v => 0 ≤ v) (clock c).

#[global] Instance non_negative_dec (c : VectorClock) : Decision (non_negative c).
Proof. unfold non_negative. apply _. Defined.

(** The union of the label sets of two clocks. *)
Definition labels (a b : VectorClock) : gset string :=
  dom (clock a) ∪ dom (clock b).

(** [ahead a b]: some label of the union carries a counter of [a] that
    strictly exceeds that of [b]. *)
Definition ahead (a b : VectorClock) : Prop :=
  ∃ L, L ∈ labels a b ∧ counter b L < counter a L.

Definition aheadb (a b : VectorClock) : bool :=
  existsb (fun L => counter b L <? counter a L) (elements (labels a b)).

(** The four causal relationships of the data model. *)
Inductive relation4 : Set :=
  | equal
  | before
  | after
  | concurrent.

(** The comparison as the specification words it, from [selfAhead] and
    [otherAhead]. *)
Definition spec_compare (self other : VectorClock) : relation4 :=
  let selfAhead := aheadb self other in
  let otherAhead := aheadb other self in
  if selfAhead && negb otherAhead then after
  else if otherAhead && negb selfAhead then before
  else if negb selfAhead && negb otherAhead then equal
  else concurrent.

(** The string by which the source names each relationship. *)
Definition label (r : relation4) : string :=
  match r with
  | equal => "equal"
  | before => "happens-before"
  | after => "happens-after"
  | concurrent => "concurrent"
  end.

(** ** Clocks and requests of the examples *)

(** Two clocks of the scenario of the specification: [A] has incremented
    once, [B] has incremented once and then merged [A]. *)
Definition clock_A : VectorClock :=
  increment (__init__ "A" (Some ["A"; "B"]%string)) None.

Definition clock_B : VectorClock :=
  update (increment (__init__ "B" (Some ["A"; "B"]%string)) None) clock_A.

(** A clock that [from_dict] builds from a snapshot with a negative value,
    and a freshly constructed clock. *)
Definition clock_negative : VectorClock :=
  {| node_id := "a"; clock := <["x" := -5]> ∅ |}.

Definition clock_fresh : VectorClock := __init__ "b" None.

(** The requests of the examples below. *)
Definition operands : list (string * value) :=
  [("x"%string, JInt 1); ("y"%string, JInt 2)].

Definition request_with (clock_value : value) : value :=
  JDict (operands ++ [("vector_clock"%string, clock_value)]).

Definition counters (l : list (string * Z)) : gmap string Z :=
  foldl (fun m item => <[fst item := snd item]> m) ∅ l.

(** The clock [{"A": 2, "B": 1}] of the scenario, as submitted and as
    imported, and the server clock it leads to. *)
Definition sent : value := JDict [("A"%string, JInt 2); ("B"%string, JInt 1)].

Definition sent_clock : VectorClock :=
  {| node_id := "client"; clock := counters [("A"%string, 2); ("B"%string, 1)] |}.

Definition served : gmap string Z :=
  counters [("A"%string, 2); ("B"%string, 1); ("server"%string, 1)].

(** [dominated a b]: no counter of [a] exceeds that of [b], an absent
    label reading as 0. *)
Definition dominated (a b : VectorClock) : Prop :=
  ∀ L, counter a L ≤ counter b L.

(** A request passes the two tests that precede the clock transaction of
    [do_POST]. *)
Definition accepted (request : value) : bool :=
  truthy request && negb (raises (contains "vector_clock" request)).

(** The state after the handler has served the requests of a list one
    after the other, as the single-threaded [HTTPServer] does. *)
Definition handle_all (requests : list (string * value)) (st : state) : state :=
  foldl (fun st request => fst (do_POST (fst request) (snd request) st)) st requests.

(** The reply of [do_POST] on the route of [path], the clock transaction
    done. *)
Definition reply_on (path : string) (request : value)
    (client_clock : option VectorClock) (server : VectorClock) : Py.result response :=
  if String.eqb path "/add" then
    route (SFadd prec emax) request client_clock server
  else if String.eqb path "/multiply" then
    route (SFmul prec emax) request client_clock server
  else
    Ok {| status := 404; payload := Failure "Not found" (Some (to_dict server)) |}.

(** The labels that a fresh clock carries. *)
Definition initial_labels (owner : string) (all_nodes : option (list string)) : list string :=
  match all_nodes with
  | Some (node :: nodes) => node :: nodes
  | _ => [owner]
  end.





(** What the events of the simulation keep of every clock. *)
Definition kept (clocks clocks' : gmap string VectorClock) : Prop :=
  dom clocks' = dom clocks ∧
  ∀ node c, clocks !! node = Some c →
    ∃ c', clocks' !! node = Some c' ∧ node_id c' = node_id c ∧ dominated c c' ∧
          (non_negative c → non_negative c').

(** [float_is f z]: the float [f] is finite and its value is the whole
    number [z]. *)
Definition float_is (f : spec_float) (z : Z) : Prop :=
  match f with
  | S754_zero _ => z = 0
  | S754_finite s m e =>
      if 0 <=? e then z = (if s then - 1 else 1) * (Zpos m * 2 ^ e)
      else z * 2 ^ (- e) = (if s then - 1 else 1) * Zpos m
  | S754_infinity _ | S754_nan => False
  end.

(** A server state whose own counter has 4301 digits. *)
Definition worn : state :=
  {| server_clock := {| node_id := "server"; clock := <["server"%string := 10 ^ 4300]> ∅ |};
     printed := [] |}.

(** ** Checks of the embedding *)

(** [int] and [float] on text. *)
Example int_of_str_literals :
  int_of_str " -1_0 " = Ok (-10) ∧ int_of_str "+007" = Ok 7 ∧
  int_of_str "1.5" = Raise ValueError ∧ int_of_str "" = Raise ValueError ∧
  int_of_str "1__0" = Raise ValueError ∧ int_of_str "- 1" = Raise ValueError.
Proof. repeat split. Qed.

Example int_of_str_edges :
  int_of_str (String (ascii_of_nat 28) "5") = Raise ValueError ∧
  int_of_str (String (ascii_of_nat 11) "5") = Ok 5 ∧
  raises (int_of_str (String.concat "" (repeat "1"%string 4300))) = false ∧
  int_of_str (String.concat "" (repeat "1"%string 4301)) = Raise ValueError.
Proof. repeat split; vm_compute; reflexivity. Qed.

Example float_of_str_literals :
  float_of_str "0.1" = Ok (S754_finite false 7205759403792794 (-56)) ∧
  float_of_str " 2.5e0 " = Ok (S754_finite false 5629499534213120 (-51)) ∧
  float_of_str "1e400" = Ok (S754_infinity false) ∧
  float_of_str "-Infinity" = Ok (S754_infinity true) ∧
  float_of_str "4.9e-324" = Ok (S754_finite false 1 (-1074)) ∧
  float_of_str "1e" = Raise ValueError ∧ float_of_str "." = Raise ValueError.
Proof. repeat split; vm_compute; reflexivity. Qed.

Example float_of_int_rounds :
  float_of_int 9007199254740993 = Ok (S754_finite false 4503599627370496 1) ∧
  float_of_int (2 ^ 1024) = Raise OverflowError.
Proof. split; vm_compute; reflexivity. Qed.

(** The run of [test_vector_clock] in vector_clock.py. *)
Example test_vector_clock :
  let a0 := __init__ "A" (Some ["A"; "B"]%string) in
  let b0 := __init__ "B" (Some ["A"; "B"]%string) in
  let a1 := increment a0 None in
  let b1 := increment b0 None in
  let a2 := increment a1 None in
  let b2 := update b1 a2 in
  let c1 := increment (__init__ "C" (Some ["A"; "B"; "C"]%string)) None in
  compare a0 b0 = "equal"%string ∧
  compare a1 b0 = "happens-after"%string ∧
  compare a1 b1 = "concurrent"%string ∧
  compare a2 b1 = "concurrent"%string ∧
  clock b2 = counters [("A"%string, 2); ("B"%string, 1)] ∧
  compare a2 b2 = "happens-before"%string ∧
  compare a2 c1 = "concurrent"%string.
Proof. repeat split; vm_compute; reflexivity. Qed.

(** ** Lemmas on the counters *)

Section counters.

Implicit Types (a b c : VectorClock) (L : string) (m : gmap string Z).

Lemma update_step_lookup node value m L :
  update_step node value m !! L =
    if decide (node = L) then Some (Z.max (default 0 (m !! node)) value)
    else m !! L.
Proof.
  unfold update_step.
  destruct (m !! node) as [v|] eqn:Hnode; case_decide; subst;
    simplify_map_eq; try done.
Qed.

(** [update] is the pointwise maximum on the labels of the other clock
    and leaves the other labels alone. *)
Lemma update_lookup a b L :
  clock (update a b) !! L =
    match clock b !! L with
    | Some v => Some (Z.max (counter a L) v)
    | None => clock a !! L
    end.
Proof.
  unfold update, counter; simpl.
  apply (map_fold_weak_ind
    (fun r m => r !! L =
       match m !! L with
       | Some v => Some (Z.max (default 0 (clock a !! L)) v)
       | None => clock a !! L
       end)).
  - by rewrite lookup_empty.
  - intros i x m r Hfresh IH. rewrite update_step_lookup.
    case_decide as Hi.
    + subst i. rewrite lookup_insert_eq. rewrite IH, Hfresh. done.
    + rewrite lookup_insert_ne by done. exact IH.
Qed.

Lemma update_counter a b L :
  counter (update a b) L =
    match clock b !! L with
    | Some v => Z.max (counter a L) v
    | None => counter a L
    end.
Proof.
  unfold counter at 1. rewrite update_lookup.
  by destruct (clock b !! L).
Qed.

Lemma update_counter_le a b L : counter a L ≤ counter (update a b) L.
Proof. rewrite update_counter. destruct (clock b !! L); lia. Qed.

Lemma increment_lookup a L :
  clock (increment a None) !! L =
    if decide (node_id a = L) then Some (counter a L + 1) else clock a !! L.
Proof.
  unfold increment, counter; simpl.
  destruct (clock a !! node_id a) as [v|] eqn:Hown; case_decide; subst;
    simplify_map_eq; try done.
Qed.

(** Invariant 1 is kept by [increment] and, on the receiving side, by
    [update], whatever the other clock holds. *)
Lemma increment_non_negative a : non_negative a → non_negative (increment a None).
Proof.
  intros Hnn L v. rewrite increment_lookup. case_decide.
  - intros [= <-]. unfold counter.
    destruct (clock a !! L) as [w|] eqn:Hw; simpl; [|lia].
    specialize (Hnn L w Hw). simpl in Hnn. lia.
  - apply Hnn.
Qed.

Lemma update_non_negative a b : non_negative a → non_negative (update a b).
Proof.
  intros Hnn L v. rewrite update_lookup.
  destruct (clock b !! L) as [w|]; [|apply Hnn].
  intros [= <-]. unfold counter.
  destruct (clock a !! L) as [u|] eqn:Hu; simpl; [|lia].
  specialize (Hnn L u Hu). simpl in Hnn. lia.
Qed.

Lemma counter_outside a b L : L ∉ labels a b → counter a L = 0 ∧ counter b L = 0.
Proof.
  unfold labels, counter. rewrite elem_of_union, !elem_of_dom.
  intros Hout.
  destruct (clock a !! L) eqn:Ha; [exfalso; apply Hout; left; eauto|].
  destruct (clock b !! L) eqn:Hb; [exfalso; apply Hout; right; eauto|].
  by split.
Qed.

Lemma labels_comm a b : labels a b = labels b a.
Proof. unfold labels. apply union_comm_L. Qed.

Lemma exists_in_add (P : string → Prop) (x : string) (X : gset string) :
  (∃ L, L ∈ {[x]} ∪ X ∧ P L) ↔ P x ∨ (∃ L, L ∈ X ∧ P L).
Proof.
  split.
  - intros (L & [HL|HL]%elem_of_union & HP); [|by eauto].
    apply elem_of_singleton in HL. subst. by left.
  - intros [HP|(L & HL & HP)]; [exists x|exists L]; (split; [|done]);
      apply elem_of_union; [left; by apply elem_of_singleton|by right].
Qed.

(** The loop of [compare] computes the two existential flags. *)
Lemma compare_flags a b :
  let flags := set_fold (compare_step a b) (false, false) (labels a b) in
  (fst flags = true ↔ ahead a b) ∧ (snd flags = true ↔ ahead b a).
Proof.
  cbv zeta. unfold ahead. rewrite (labels_comm b a).
  generalize (labels a b). intros U.
  apply (set_fold_ind_L
    (fun flags X =>
       (fst flags = true ↔ ∃ L, L ∈ X ∧ counter b L < counter a L) ∧
       (snd flags = true ↔ ∃ L, L ∈ X ∧ counter a L < counter b L))).
  - simpl. split; (split; [done|]); intros (L & HL & _);
      by apply not_elem_of_empty in HL.
  - intros x X [sg og] _ [IHs IHo]. unfold compare_step.
    fold (counter a x). fold (counter b x).
    rewrite !exists_in_add, <- IHs, <- IHo. simpl.
    destruct (Z.ltb_spec (counter b x) (counter a x));
      [|destruct (Z.ltb_spec (counter a x) (counter b x))]; simpl;
      intuition lia.
Qed.

Lemma aheadb_spec a b : aheadb a b = true ↔ ahead a b.
Proof.
  unfold aheadb, ahead. rewrite existsb_exists. split.
  - intros (L & HL & Hlt). exists L. split.
    + apply elem_of_elements. by apply list_elem_of_In.
    + by apply Z.ltb_lt.
  - intros (L & HL & Hlt). exists L. split.
    + apply list_elem_of_In. by apply elem_of_elements.
    + by apply Z.ltb_lt.
Qed.

(** The flags of the loop are those of the specification. *)
Lemma compare_flags_aheadb a b :
  set_fold (compare_step a b) (false, false) (labels a b) = (aheadb a b, aheadb b a).
Proof.
  pose proof (compare_flags a b) as [Hs Ho]. cbv zeta in Hs, Ho.
  destruct (set_fold (compare_step a b) (false, false) (labels a b)) as [sg og].
  simpl in *. f_equal.
  - apply eq_true_iff_eq. by rewrite Hs, aheadb_spec.
  - apply eq_true_iff_eq. by rewrite Ho, aheadb_spec.
Qed.

Lemma compare_label a b : compare a b = label (spec_compare a b).
Proof.
  unfold compare, spec_compare. fold (labels a b).
  rewrite compare_flags_aheadb.
  by destruct (aheadb a b), (aheadb b a).
Qed.

Lemma ahead_irrefl a b : clock a = clock b → ¬ ahead a b.
Proof.
  intros Heq (L & _ & Hlt). unfold counter in Hlt. rewrite Heq in Hlt. lia.
Qed.

End counters.

(** ** The comparison *)

(** C5. [compare] follows the algorithm of the specification over the union
    of the two label sets, an absent label reading as 0: it yields the name
    of [after] exactly when some label of [a] is strictly ahead and none of
    [b] is, of [before] in the symmetric case, of [equal] when neither side
    is ever ahead, of [concurrent] when both are. The source spells [after]
    and [before] as 'happens-after' and 'happens-before' ([label]). A clock
    compared with itself, or with a snapshot carrying the same counters,
    yields [equal]. *)
Theorem compare_follows_spec (a b : VectorClock) :
  compare a b = label (spec_compare a b) ∧
  (compare a b = label after ↔ ahead a b ∧ ¬ ahead b a) ∧
  (compare a b = label before ↔ ahead b a ∧ ¬ ahead a b) ∧
  (compare a b = label equal ↔ ¬ ahead a b ∧ ¬ ahead b a) ∧
  (compare a b = label concurrent ↔ ahead a b ∧ ahead b a) ∧
  compare a a = label equal ∧
  (∀ snapshot, clock snapshot = clock a → compare a snapshot = label equal).
Proof.
  assert (Hself : ∀ c c', clock c' = clock c → compare c c' = label equal).
  { intros c c' Heq. rewrite compare_label. unfold spec_compare.
    destruct (aheadb c c') eqn:H1.
    { apply aheadb_spec in H1. by apply ahead_irrefl in H1. }
    destruct (aheadb c' c) eqn:H2.
    { apply aheadb_spec in H2. by apply ahead_irrefl in H2. }
    done. }
  split; [apply compare_label|].
  rewrite compare_label. unfold spec_compare.
  rewrite <- !aheadb_spec.
  repeat split; auto;
    destruct (aheadb a b), (aheadb b a); simpl in *;
    try discriminate; try done; intuition discriminate.
Qed.

(** The identity of C5 at the two clocks of the scenario, and the
    reflexive case through its hypothesis. *)
Lemma compare_follows_spec_witness :
  compare clock_A clock_B = label before ∧
  compare clock_B clock_B = label equal.
Proof.
  split.
  - rewrite (proj1 (compare_follows_spec clock_A clock_B)). vm_compute. reflexivity.
  - apply (proj2 (proj2 (proj2 (proj2 (proj2 (proj2
      (compare_follows_spec clock_B clock_B))))))). reflexivity.
Defined.

(** C6. The comparison is anti-symmetric: when [a.compare(b)] yields
    [after] (spelled 'happens-after'), [b.compare(a)] yields [before]
    (spelled 'happens-before'), and the other way round. *)
Theorem compare_antisymmetric (a b : VectorClock) :
  (compare a b = label after → compare b a = label before) ∧
  (compare a b = label before → compare b a = label after).
Proof.
  rewrite !compare_label. unfold spec_compare.
  destruct (aheadb a b), (aheadb b a); simpl; split; intros H;
    try discriminate H; reflexivity.
Qed.

Lemma compare_antisymmetric_witness :
  (compare clock_B clock_A = label after ∧ compare clock_A clock_B = label before) ∧
  (compare clock_A clock_B = label before ∧ compare clock_B clock_A = label after).
Proof.
  split; split.
  - vm_compute. reflexivity.
  - apply (proj1 (compare_antisymmetric clock_B clock_A)). vm_compute. reflexivity.
  - vm_compute. reflexivity.
  - apply (proj2 (compare_antisymmetric clock_A clock_B)). vm_compute. reflexivity.
Defined.

(** ** The merge *)

Lemma clock_negative_imported :
  from_dict (JDict [("x"%string, JInt (-5))]) "a" = Ok clock_negative.
Proof. reflexivity. Qed.

(** C7, as stated, fails: a clock imported with a negative counter keeps it
    through a merge with a clock that lacks the label, although the absent
    label reads as 0 on the other side. *)
Lemma update_below_max_on_negative_counter :
  from_dict (JDict [("x"%string, JInt (-5))]) "a" = Ok clock_negative ∧
  counter (update clock_negative clock_fresh) "x" = -5 ∧
  Z.max (counter clock_negative "x") (counter clock_fresh "x") = 0 ∧
  ¬ (Z.max (counter clock_negative "x") (counter clock_fresh "x")
       ≤ counter (update clock_negative clock_fresh) "x").
Proof.
  split; [reflexivity|]. split; [reflexivity|]. split; [reflexivity|].
  vm_compute. intros H. apply H. reflexivity.
Qed.

(** C7, amended. A merge never decreases a counter of [a], the owner's
    included; and the merged counter of a label is at least the maximum of
    the two previous ones whenever the label is present in [b] or its
    counter in [a] is not negative, hence for every label when [a] keeps
    Invariant 1. *)
Theorem update_monotone (a b : VectorClock) (L : string) :
  counter a L ≤ counter (update a b) L ∧
  (is_Some (clock b !! L) ∨ 0 ≤ counter a L →
     Z.max (counter a L) (counter b L) ≤ counter (update a b) L) ∧
  (non_negative a →
     Z.max (counter a L) (counter b L) ≤ counter (update a b) L).
Proof.
  rewrite update_counter. unfold non_negative, counter.
  destruct (clock b !! L) as [v|] eqn:Hb; simpl.
  - repeat split; intros; lia.
  - repeat split; [lia| |].
    + intros [[? ?]|?]; [discriminate|lia].
    + intros Hnn. destruct (clock a !! L) as [w|] eqn:Ha; simpl; [|lia].
      specialize (Hnn L w Ha). simpl in Hnn. lia.
Qed.

Lemma update_monotone_witness :
  Z.max (counter clock_fresh "x") (counter clock_negative "x")
    ≤ counter (update clock_fresh clock_negative) "x" ∧
  Z.max (counter clock_A "B") (counter clock_B "B")
    ≤ counter (update clock_A clock_B) "B".
Proof.
  split.
  - apply (proj1 (proj2 (update_monotone clock_fresh clock_negative "x"))).
    left. vm_compute. eexists. reflexivity.
  - apply (proj2 (proj2 (update_monotone clock_A clock_B "B"))).
    apply (bool_decide_unpack (non_negative clock_A)). vm_compute. exact I.
Defined.

(** C8, as stated, fails: the two orders of merging disagree on a label
    that only the clock with a negative counter carries. *)
Lemma update_not_commutative_on_negative_counter :
  clock (update clock_negative clock_fresh) !! "x"%string = Some (-5) ∧
  clock (update clock_fresh clock_negative) !! "x"%string = Some 0 ∧
  clock (update clock_negative clock_fresh) ≠ clock (update clock_fresh clock_negative).
Proof.
  split; [reflexivity|]. split; [reflexivity|].
  intros Heq. apply (f_equal (fun m : gmap string Z => m !! "x"%string)) in Heq.
  vm_compute in Heq. discriminate Heq.
Qed.

(** C8, amended. Merging the same clock twice is merging it once, for all
    clocks; the two orders of merging yield the same counters when both
    clocks keep Invariant 1 (no negative counter). *)
Theorem update_idempotent_commutative (a b : VectorClock) :
  update (update a b) b = update a b ∧
  (non_negative a → non_negative b → clock (update a b) = clock (update b a)).
Proof.
  split.
  - unfold update at 1 3. simpl. f_equal.
    change (clock (update (update a b) b) = clock (update a b)).
    apply map_eq. intros L. rewrite (update_lookup (update a b) b).
    rewrite update_counter, update_lookup.
    destruct (clock b !! L) as [v|]; [|done]. f_equal. lia.
  - intros Ha Hb. apply map_eq. intros L. rewrite !update_lookup.
    unfold counter.
    destruct (clock a !! L) as [v|] eqn:HaL, (clock b !! L) as [w|] eqn:HbL;
      simpl; try done; f_equal.
    + lia.
    + specialize (Ha L v HaL). simpl in Ha. lia.
    + specialize (Hb L w HbL). simpl in Hb. lia.
Qed.

Lemma update_idempotent_commutative_witness :
  clock (update clock_A clock_B) = clock (update clock_B clock_A).
Proof.
  apply (proj2 (update_idempotent_commutative clock_A clock_B)).
  - apply (bool_decide_unpack (non_negative clock_A)). vm_compute. exact I.
  - apply (bool_decide_unpack (non_negative clock_B)). vm_compute. exact I.
Defined.

(** ** The import of a snapshot *)

Section import.

Implicit Types (items d : list (string * value)) (acc c : gmap string Z).

Lemma dict_get_absent key d : key ∉ keys d → dict_get key d = None.
Proof.
  induction d as [|[k v] d IH]; simpl; [done|].
  intros Hout. apply not_elem_of_cons in Hout as [Hne Hout].
  destruct (String.eqb_spec k key); [congruence|]. by apply IH.
Qed.

Lemma dict_get_elem key d v : dict_get key d = Some v → (key, v) ∈ d.
Proof.
  induction d as [|[k w] d IH]; simpl; [done|].
  destruct (String.eqb_spec k key) as [->|_].
  - intros [= ->]. apply list_elem_of_here.
  - intros H. apply list_elem_of_further. by apply IH.
Qed.

(** The conversion [int(v)] raises one of three exceptions. *)
Lemma int_raise v e :
  int v = Raise e → e = TypeError ∨ e = ValueError ∨ e = OverflowError.
Proof.
  destruct v as [|b|z|f|s|l|d]; simpl; try (intros [= <-]; by auto).
  - destruct f; simpl; intros [= <-]; auto.
  - unfold int_of_str. destruct (sign _) as [neg body].
    destruct (digitpart body) as [[[n count] [|c r]]|];
      [destruct (max_str_digits <? count)| |]; intros [= <-]; auto.
Qed.

(** The comprehension fails exactly when some value does not convert. *)
Lemma int_items_raises items acc :
  raises (int_items items acc) = true ↔
  Exists (fun item => raises (int (snd item)) = true) items.
Proof.
  revert acc. induction items as [|[k v] items IH]; intros acc; simpl.
  - rewrite Exists_nil. split; [discriminate|done].
  - rewrite Exists_cons. simpl. destruct (int v) as [z|e]; simpl.
    + rewrite IH. split; [by right|]. by intros [?|?].
    + split; [by left|done].
Qed.

Lemma int_items_raise items acc e :
  int_items items acc = Raise e →
  e = TypeError ∨ e = ValueError ∨ e = OverflowError.
Proof.
  revert acc. induction items as [|[k v] items IH]; intros acc; simpl.
  - discriminate.
  - destruct (int v) as [z|e'] eqn:Hv; simpl.
    + apply IH.
    + intros [= <-]. by apply (int_raise v).
Qed.

(** The counters that the comprehension builds over [acc]. *)
Lemma int_items_lookup items acc c key :
  NoDup (keys items) →
  int_items items acc = Ok c →
  c !! key =
    match dict_get key items with
    | Some v => match int v with Ok z => Some z | Raise _ => None end
    | None => acc !! key
    end.
Proof.
  revert acc. induction items as [|[k v] items IH]; intros acc Hnd; simpl.
  - by intros [= ->].
  - apply NoDup_cons in Hnd as [Hfresh Hnd].
    destruct (int v) as [z|e] eqn:Hv; simpl; [|discriminate].
    intros Hrest. rewrite (IH _ Hnd Hrest).
    destruct (String.eqb_spec k key) as [->|Hne].
    + rewrite dict_get_absent by done. by rewrite lookup_insert_eq, Hv.
    + destruct (dict_get key items); [done|]. by rewrite lookup_insert_ne.
Qed.

End import.

(** C10. A successful [from_dict(data, owner)] on a dict yields the clock
    of that owner whose counters are exactly [{k: int(v)}] over the items of
    [data]; when the owner is not a key of [data], the clock has no entry
    for its own owner: the 0 that the constructor had put there is
    dropped with the constructor's dict. *)
Theorem from_dict_counters (items : list (string * value)) (owner : string)
    (vc : VectorClock) :
  NoDup (keys items) →
  from_dict (JDict items) owner = Ok vc →
  node_id vc = owner ∧
  (∀ key, clock vc !! key =
     match dict_get key items with
     | Some v => match int v with Ok z => Some z | Raise _ => None end
     | None => None
     end) ∧
  (dict_has owner items = false → clock vc !! owner = None) ∧
  (∀ key v, dict_get key items = Some v → ∃ z, int v = Ok z ∧ clock vc !! key = Some z).
Proof.
  intros Hnd. unfold from_dict. simpl.
  destruct (int_items items ∅) as [c|e] eqn:Hc; simpl; [|discriminate].
  intros [= <-]. simpl.
  assert (Hlookup : ∀ key, c !! key =
     match dict_get key items with
     | Some v => match int v with Ok z => Some z | Raise _ => None end
     | None => None
     end).
  { intros key. rewrite (int_items_lookup items ∅ c key Hnd Hc).
    by rewrite lookup_empty. }
  repeat split; [exact Hlookup| |].
  - unfold dict_has. rewrite Hlookup. by destruct (dict_get owner items).
  - intros key v Hv. rewrite Hlookup, Hv.
    destruct (int v) as [z|e] eqn:Hint; [by exists z|].
    exfalso. assert (Hr : raises (int_items items ∅) = true).
    { apply int_items_raises, Exists_exists. exists (key, v). split.
      - by apply dict_get_elem.
      - simpl. by rewrite Hint. }
    by rewrite Hc in Hr.
Qed.

(** The snapshot [{"A": "2", "B": 1.0}] imported for the owner "client":
    two coerced counters and none for the owner. *)
Lemma from_dict_counters_witness :
  ∃ vc,
    from_dict (JDict [("A"%string, JStr "2");
                      ("B"%string, JFloat (S754_finite false 4503599627370496 (-52)))])
      "client" = Ok vc ∧
    node_id vc = "client"%string ∧
    clock vc !! "A"%string = Some 2 ∧
    clock vc !! "B"%string = Some 1 ∧
    clock vc !! "client"%string = None.
Proof.
  eexists. split; [reflexivity|].
  pose proof (from_dict_counters
    [("A"%string, JStr "2");
     ("B"%string, JFloat (S754_finite false 4503599627370496 (-52)))]
    "client" _ ltac:(compute_done) eq_refl)
    as (Hid & Hget & Hown & _).
  split; [exact Hid|]. split; [exact (Hget "A"%string)|].
  split; [exact (Hget "B"%string)|]. apply Hown. reflexivity.
Defined.

(** C1, as stated, fails: the import accepts a negative value as it is and
    truncates a value that is not an integer (here 1.5). *)
Lemma from_dict_accepts_negative_and_fraction :
  from_dict (JDict [("A"%string, JInt (-1))]) "client"
    = Ok {| node_id := "client"; clock := <["A"%string := -1]> ∅ |} ∧
  from_dict (JDict [("A"%string, JFloat (S754_finite false 6755399441055744 (-52)))]) "client"
    = Ok {| node_id := "client"; clock := <["A"%string := 1]> ∅ |}.
Proof. split; reflexivity. Qed.

(** C1, amended. The import converts every value with [int]: it fails
    exactly when [int] raises on some value, with that exception
    ([TypeError], [ValueError] or [OverflowError], there being no error
    class of its own); a negative integer is imported as it is. It builds a
    new clock and reads no other: when it fails inside the handler, the
    [try] block leaves the server's counters as they were and imports no
    client clock. *)
Theorem from_dict_fails_iff_int_raises (items : list (string * value))
    (owner : string) :
  (raises (from_dict (JDict items) owner) = true ↔
     Exists (fun item => raises (int (snd item)) = true) items) ∧
  (∀ e, from_dict (JDict items) owner = Raise e →
     e = TypeError ∨ e = ValueError ∨ e = OverflowError) ∧
  (∀ key z, from_dict (JDict [(key, JInt z)]) owner
     = Ok {| node_id := owner; clock := <[key := z]> ∅ |}) ∧
  (∀ (d : list (string * value)) (st : state),
     dict_get "vector_clock" d = Some (JDict items) →
     raises (from_dict (JDict items) "client") = true →
     fst (receive_clock (JDict d) st) = None ∧
     server_clock (snd (receive_clock (JDict d) st)) = server_clock st).
Proof.
  split; [|split; [|split]].
  - unfold from_dict. simpl. rewrite <- (int_items_raises items ∅).
    by destruct (int_items items ∅).
  - intros e. unfold from_dict. simpl.
    destruct (int_items items ∅) as [c|e'] eqn:Hc; simpl; [discriminate|].
    intros [= <-]. by apply (int_items_raise items ∅).
  - reflexivity.
  - intros d st Hget Hfail. unfold receive_clock, getitem. rewrite Hget.
    cbn [bind]. by destruct (from_dict (JDict items) "client").
Qed.

(** A request whose clock carries the text "soon": the import raises
    [ValueError] and the server clock is the one it was. *)
Lemma from_dict_fails_iff_int_raises_witness :
  let d := [("x"%string, JInt 1); ("vector_clock"%string, JDict [("A"%string, JStr "soon")])] in
  from_dict (JDict [("A"%string, JStr "soon")]) "client" = Raise ValueError ∧
  fst (receive_clock (JDict d) initial) = None ∧
  server_clock (snd (receive_clock (JDict d) initial)) = server_clock initial.
Proof.
  split; [reflexivity|].
  apply (proj2 (proj2 (proj2 (from_dict_fails_iff_int_raises
    [("A"%string, JStr "soon")] "client")))); reflexivity.
Defined.

(** ** The request handler *)

Section handler.

Implicit Types (path : string) (d : list (string * value)) (st : state).

(** [do_POST] on a dict that is not empty: the clock transaction, then
    the route. *)
Lemma do_POST_dict path d st :
  d ≠ [] →
  do_POST path (JDict d) st =
    let received :=
      if dict_has "vector_clock" d then receive_clock (JDict d) st else (None, st) in
    let st' :=
      {| server_clock := increment (server_clock (snd received)) None;
         printed := printed (snd received) |} in
    (st',
     if String.eqb path "/add" then
       route (SFadd prec emax) (JDict d) (fst received) (server_clock st')
     else if String.eqb path "/multiply" then
       route (SFmul prec emax) (JDict d) (fst received) (server_clock st')
     else
       Ok {| status := 404;
             payload := Failure "Not found" (Some (to_dict (server_clock st'))) |}).
Proof.
  intros Hd. unfold do_POST. destruct d as [|item d]; [done|].
  cbn [truthy negb contains].
  destruct (if dict_has "vector_clock" (item :: d)
            then receive_clock (JDict (item :: d)) st else (None, st))
    as [client_clock st1].
  cbn [fst snd]. by repeat case_match.
Qed.

(** The clock that the [try] block leaves never lags behind. *)
Lemma receive_clock_counter request st L :
  node_id (server_clock (snd (receive_clock request st))) = node_id (server_clock st) ∧
  counter (server_clock st) L ≤ counter (server_clock (snd (receive_clock request st))) L.
Proof.
  unfold receive_clock.
  destruct (bind (getitem request "vector_clock") _) as [cc|e]; simpl.
  - split; [done|]. apply update_counter_le.
  - split; [done|lia].
Qed.

(** The server clock starts without a negative counter and no request
    gives it one. *)
Lemma initial_non_negative : non_negative (server_clock initial).
Proof. apply (bool_decide_unpack (non_negative (server_clock initial))). by vm_compute. Qed.

Lemma do_POST_non_negative path request st :
  non_negative (server_clock st) →
  non_negative (server_clock (fst (do_POST path request st))).
Proof.
  intros Hnn. unfold do_POST.
  destruct (negb (truthy request)); [done|].
  destruct (contains "vector_clock" request) as [has|e]; [|done].
  assert (Hrecv : non_negative (server_clock
            (snd (if has then receive_clock request st else (None, st))))).
  { destruct has; [|done]. unfold receive_clock.
    destruct (bind (getitem request "vector_clock") _); simpl; [|done].
    by apply update_non_negative. }
  destruct (if has then receive_clock request st else (None, st)) as [cc st1].
  simpl in Hrecv. apply increment_non_negative in Hrecv.
  by repeat case_match.
Qed.

Lemma int_of_integer f : is_integer f = true → ∃ z, int_of_float f = Ok z.
Proof. destruct f; simpl; try discriminate; eauto. Qed.

(** The two replies of a route. *)
Lemma route_rejected op request client_clock server message :
  validate_operands request = Ok (inl message) →
  route op request client_clock server =
    Ok {| status := 400; payload := Failure message (Some (clock server)) |}.
Proof. intros Hv. unfold route. by rewrite Hv. Qed.

Lemma route_answered op request client_clock server x_val y_val :
  validate_operands request = Ok (inr (x_val, y_val)) →
  ∃ res,
    route op request client_clock server =
      Ok {| status := 200;
            payload :=
              Answer res (clock server)
                {| causality_server_clock := clock server;
                   causality_client_clock := option_map clock client_clock;
                   relationship :=
                     match client_clock with
                     | Some c => compare server c
                     | None => "no_client_clock"
                     end |} |}.
Proof.
  intros Hv. unfold route. rewrite Hv. cbn [bind].
  destruct (is_integer (op x_val y_val)) eqn:Hint.
  - destruct (int_of_integer _ Hint) as [z ->]. by exists (NInt z).
  - by eexists.
Qed.

(** Every reply of a route carries the clock it was given, and an answer
    names the relationship with the imported clock, if any. *)
Lemma route_reply op request client_clock server r :
  route op request client_clock server = Ok r →
  match payload r with
  | Failure _ vc => vc = Some (clock server)
  | Answer _ vc c =>
      vc = clock server ∧
      causality_client_clock c = option_map clock client_clock ∧
      relationship c =
        match client_clock with
        | Some c' => compare server c'
        | None => "no_client_clock"%string
        end
  end.
Proof.
  unfold route.
  destruct (validate_operands request) as [[message|[x_val y_val]]|e];
    cbn [bind]; [by intros [= <-]| |discriminate].
  destruct (is_integer (op x_val y_val)).
  - destruct (int_of_float (op x_val y_val)); cbn [bind];
      [by intros [= <-]|discriminate].
  - cbn [bind]. by intros [= <-].
Qed.

Lemma validate_operands_missing d :
  dict_has "x" d = false ∨ dict_has "y" d = false →
  validate_operands (JDict d) = Ok (inl "Missing 'x' or 'y' in request body"%string).
Proof.
  unfold dict_has, validate_operands.
  destruct (dict_get "x" d), (dict_get "y" d); intros [?|?]; done.
Qed.

End handler.

(** C2, as stated, fails. A clock with a negative value is imported: the
    request is answered with status 200, the label "A" enters the server
    clock, and the relationship is computed against the negative clock. A
    clock with a value that does not convert is not merged, but the request
    is answered all the same, as one without a clock. *)
Lemma do_POST_negative_clock_merged :
  do_POST "/add" (request_with (JDict [("A"%string, JInt (-1))])) initial =
    ({| server_clock :=
          {| node_id := "server";
             clock := counters [("server"%string, 1); ("A"%string, 0)] |};
        printed := [] |},
     Ok {| status := 200;
           payload :=
             Answer (NInt 3) (counters [("server"%string, 1); ("A"%string, 0)])
               {| causality_server_clock := counters [("server"%string, 1); ("A"%string, 0)];
                  causality_client_clock := Some (counters [("A"%string, -1)]);
                  relationship := "happens-after" |} |}) ∧
  do_POST "/add" (request_with (JDict [("A"%string, JStr "soon")])) initial =
    ({| server_clock :=
          {| node_id := "server"; clock := counters [("server"%string, 1)] |};
        printed := [ValueError] |},
     Ok {| status := 200;
           payload :=
             Answer (NInt 3) (counters [("server"%string, 1)])
               {| causality_server_clock := counters [("server"%string, 1)];
                  causality_client_clock := None;
                  relationship := "no_client_clock" |} |}).
Proof. split; vm_compute; reflexivity. Qed.

(** C2, amended. When the import of the attached clock raises (a value that
    [int] does not convert, or a [vector_clock] entry that is not a dict),
    nothing is merged: the server prints the exception, increments its own
    counter once, and handles the request as one without a clock: an answer
    has no client clock and the relationship [no_client_clock], and is
    given whenever the operands are valid. When the import succeeds, as it
    does on every value that [int] converts, a negative integer among them,
    the imported clock is merged before the increment and the answer is
    computed against it. *)
Theorem do_POST_clock_import (path : string) (d : list (string * value))
    (st : state) (v : value) :
  dict_get "vector_clock" d = Some v →
  let out := do_POST path (JDict d) st in
  (∀ e, from_dict v "client" = Raise e →
     let server := increment (server_clock st) None in
     fst out = {| server_clock := server; printed := printed st ++ [e] |} ∧
     (∀ r, snd out = Ok r →
        match payload r with
        | Failure _ vc => vc = Some (clock server)
        | Answer _ vc c =>
            vc = clock server ∧ causality_client_clock c = None ∧
            relationship c = "no_client_clock"%string
        end) ∧
     (∀ x_val y_val,
        path = "/add"%string ∨ path = "/multiply"%string →
        validate_operands (JDict d) = Ok (inr (x_val, y_val)) →
        ∃ res,
          snd out =
            Ok {| status := 200;
                  payload :=
                    Answer res (clock server)
                      {| causality_server_clock := clock server;
                         causality_client_clock := None;
                         relationship := "no_client_clock" |} |})) ∧
  (∀ client_clock, from_dict v "client" = Ok client_clock →
     let server := increment (update (server_clock st) client_clock) None in
     fst out = {| server_clock := server; printed := printed st |} ∧
     (∀ r, snd out = Ok r →
        match payload r with
        | Failure _ vc => vc = Some (clock server)
        | Answer _ vc c =>
            vc = clock server ∧
            causality_client_clock c = Some (clock client_clock) ∧
            relationship c = compare server client_clock
        end)).
Proof.
  intros Hget. cbv zeta.
  assert (Hd : d ≠ []) by (by destruct d).
  rewrite (do_POST_dict path d st Hd). cbv zeta.
  split.
  - intros e Hfail.
    assert (Hrecv : (if dict_has "vector_clock" d
                     then receive_clock (JDict d) st else (None, st))
                    = (None, {| server_clock := server_clock st;
                                printed := printed st ++ [e] |})).
    { unfold dict_has, receive_clock, getitem. rewrite Hget. cbn [bind].
      by rewrite Hfail. }
    rewrite Hrecv. cbn [fst snd server_clock printed].
    split; [done|]. split.
    + intros r.
      destruct (String.eqb path "/add");
        [|destruct (String.eqb path "/multiply")].
      * intros Hr. apply route_reply in Hr. by destruct (payload r).
      * intros Hr. apply route_reply in Hr. by destruct (payload r).
      * by intros [= <-].
    + intros x_val y_val [-> | ->] Hv; cbn [String.eqb Ascii.eqb Bool.eqb];
        by eapply (route_answered _ _ None).
  - intros client_clock Hok.
    assert (Hrecv : (if dict_has "vector_clock" d
                     then receive_clock (JDict d) st else (None, st))
                    = (Some client_clock,
                       {| server_clock := update (server_clock st) client_clock;
                          printed := printed st |})).
    { unfold dict_has, receive_clock, getitem. rewrite Hget. cbn [bind].
      by rewrite Hok. }
    rewrite Hrecv. cbn [fst snd server_clock printed].
    split; [done|]. intros r.
    destruct (String.eqb path "/add");
      [|destruct (String.eqb path "/multiply")].
    + intros Hr. apply route_reply in Hr. by destruct (payload r).
    + intros Hr. apply route_reply in Hr. by destruct (payload r).
    + by intros [= <-].
Qed.

Lemma do_POST_clock_import_witness :
  let out := do_POST "/multiply" (request_with (JList [JInt 1])) initial in
  fst out =
    {| server_clock := increment (server_clock initial) None;
       printed := [AttributeError] |} ∧
  ∃ res,
    snd out =
      Ok {| status := 200;
            payload :=
              Answer res (clock (increment (server_clock initial) None))
                {| causality_server_clock := clock (increment (server_clock initial) None);
                   causality_client_clock := None;
                   relationship := "no_client_clock" |} |}.
Proof.
  pose proof (proj1 (do_POST_clock_import "/multiply"
    (operands ++ [("vector_clock"%string, JList [JInt 1])]) initial
    (JList [JInt 1]) eq_refl) AttributeError eq_refl) as (Hst & _ & Hans).
  split; [exact Hst|].
  refine (Hans (S754_finite false 4503599627370496 (-52))
               (S754_finite false 4503599627370496 (-51)) _ _).
  - by right.
  - vm_compute. reflexivity.
Defined.

(** C3, as stated, fails. A request on /add without operands is rejected
    with status 400 after the clock it carries has been merged and the
    server's own counter incremented. *)
Lemma do_POST_missing_operands_after_merge :
  do_POST "/add" (JDict [("vector_clock"%string, JDict [("A"%string, JInt 2)])]) initial =
    ({| server_clock :=
          {| node_id := "server";
             clock := counters [("server"%string, 1); ("A"%string, 2)] |};
        printed := [] |},
     Ok {| status := 400;
           payload :=
             Failure "Missing 'x' or 'y' in request body"
               (Some (counters [("server"%string, 1); ("A"%string, 2)])) |}) ∧
  server_clock (fst (do_POST "/add"
    (JDict [("vector_clock"%string, JDict [("A"%string, JInt 2)])]) initial))
    ≠ server_clock initial.
Proof.
  split; [vm_compute; reflexivity|].
  intros Heq. apply (f_equal (fun c => clock c !! "A"%string)) in Heq.
  vm_compute in Heq. discriminate Heq.
Qed.

(** C3, amended. On /add and /multiply a dict that is not empty and lacks
    'x' or 'y' is rejected with status 400 only after the clock
    transaction: the attached clock, if it imports, has been merged
    ([update]) into the server clock, and the server's own counter
    incremented, so that the clock differs from the one before the
    request; the rejection carries the clock so advanced. An attached
    clock that does not import is printed and not merged, and the own
    counter is incremented all the same. An empty body is rejected before
    that, the clock untouched. *)
Theorem do_POST_missing_operands (path : string) (d : list (string * value))
    (st : state) :
  path = "/add"%string ∨ path = "/multiply"%string →
  d ≠ [] →
  dict_has "x" d = false ∨ dict_has "y" d = false →
  let out := do_POST path (JDict d) st in
  let merged := if dict_has "vector_clock" d then snd (receive_clock (JDict d) st) else st in
  let own := node_id (server_clock st) in
  server_clock (fst out) = increment (server_clock merged) None ∧
  snd out =
    Ok {| status := 400;
          payload :=
            Failure "Missing 'x' or 'y' in request body"
              (Some (clock (server_clock (fst out)))) |} ∧
  counter (server_clock st) own < counter (server_clock (fst out)) own ∧
  server_clock (fst out) ≠ server_clock st ∧
  do_POST path (JDict []) st =
    (st, Ok {| status := 400; payload := Failure "Invalid JSON" None |}) ∧
  (∀ v client_clock,
     dict_get "vector_clock" d = Some v →
     from_dict v "client" = Ok client_clock →
     out =
       ({| server_clock := increment (update (server_clock st) client_clock) None;
           printed := printed st |},
        Ok {| status := 400;
              payload :=
                Failure "Missing 'x' or 'y' in request body"
                  (Some (clock (increment (update (server_clock st) client_clock) None))) |}) ∧
     ∀ L sent_counter,
       clock client_clock !! L = Some sent_counter →
       sent_counter ≤ counter (server_clock (fst out)) L) ∧
  (∀ v e,
     dict_get "vector_clock" d = Some v →
     from_dict v "client" = Raise e →
     fst out =
       {| server_clock := increment (server_clock st) None;
          printed := printed st ++ [e] |}) ∧
  (dict_get "vector_clock" d = None →
     fst out =
       {| server_clock := increment (server_clock st) None; printed := printed st |}).
Proof.
  intros Hpath Hd Hmissing. cbv zeta.
  assert (Hreply : ∀ cc server,
    (if String.eqb path "/add"
     then route (SFadd prec emax) (JDict d) cc server
     else if String.eqb path "/multiply"
          then route (SFmul prec emax) (JDict d) cc server
          else Ok {| status := 404;
                     payload := Failure "Not found" (Some (to_dict server)) |})
    = Ok {| status := 400;
            payload := Failure "Missing 'x' or 'y' in request body" (Some (clock server)) |}).
  { intros cc server. apply validate_operands_missing in Hmissing.
    destruct Hpath as [-> | ->]; cbn [String.eqb Ascii.eqb Bool.eqb];
      by apply route_rejected. }
  rewrite (do_POST_dict path d st Hd). cbv zeta. cbn [fst snd server_clock].
  rewrite Hreply.
  set (received := if dict_has "vector_clock" d
                   then receive_clock (JDict d) st else (None, st)).
  assert (Hsnd : snd received =
    (if dict_has "vector_clock" d then snd (receive_clock (JDict d) st) else st)).
  { unfold received. by destruct (dict_has "vector_clock" d). }
  rewrite <- Hsnd.
  assert (Hown : node_id (server_clock (snd received)) = node_id (server_clock st) ∧
                 counter (server_clock st) (node_id (server_clock st))
                   ≤ counter (server_clock (snd received)) (node_id (server_clock st))).
  { unfold received. destruct (dict_has "vector_clock" d); cbn [snd].
    - apply receive_clock_counter.
    - split; [done|lia]. }
  destruct Hown as [Hid Hle].
  assert (Hlt : counter (server_clock st) (node_id (server_clock st))
                < counter (increment (server_clock (snd received)) None)
                    (node_id (server_clock st))).
  { unfold counter at 2. rewrite increment_lookup, Hid.
    rewrite decide_True by done. simpl. lia. }
  split; [done|]. split; [done|]. split; [exact Hlt|].
  split; [intros Heq; rewrite Heq in Hlt; lia|]. split; [done|].
  split; [|split].
  - intros v cc Hget Hok.
    assert (Hrecv : received = (Some cc,
              {| server_clock := update (server_clock st) cc; printed := printed st |})).
    { unfold received, dict_has, receive_clock, getitem. rewrite Hget. cbn [bind].
      by rewrite Hok. }
    rewrite Hrecv. cbn [fst snd server_clock printed]. split; [done|].
    intros L sent_counter HL. unfold counter at 1.
    rewrite increment_lookup. rewrite update_counter, update_lookup, HL.
    case_decide; simpl; lia.
  - intros v e Hget Hfail.
    assert (Hrecv : received = (None,
              {| server_clock := server_clock st; printed := printed st ++ [e] |})).
    { unfold received, dict_has, receive_clock, getitem. rewrite Hget. cbn [bind].
      by rewrite Hfail. }
    by rewrite Hrecv.
  - intros Hget. unfold received, dict_has. rewrite Hget. by destruct st.
Qed.

(** A request without 'y' that carries the clock [{"A": 2}]: the label "A"
    is in the server clock when the rejection is sent. *)
Lemma do_POST_missing_operands_witness :
  let request := [("x"%string, JInt 1);
                  ("vector_clock"%string, JDict [("A"%string, JInt 2)])] in
  do_POST "/add" (JDict request) initial =
    ({| server_clock :=
          increment (update (server_clock initial)
                       {| node_id := "client"; clock := <["A"%string := 2]> ∅ |}) None;
        printed := [] |},
     Ok {| status := 400;
           payload :=
             Failure "Missing 'x' or 'y' in request body"
               (Some (clock (increment (update (server_clock initial)
                        {| node_id := "client"; clock := <["A"%string := 2]> ∅ |}) None))) |}) ∧
  clock (server_clock (fst (do_POST "/add" (JDict request) initial)))
    = counters [("server"%string, 1); ("A"%string, 2)] ∧
  counter (server_clock initial) "server"
    < counter (server_clock (fst (do_POST "/add" (JDict request) initial))) "server".
Proof.
  pose proof (do_POST_missing_operands "/add"
    [("x"%string, JInt 1); ("vector_clock"%string, JDict [("A"%string, JInt 2)])] initial
    (or_introl eq_refl) ltac:(discriminate) (or_intror eq_refl))
    as (_ & _ & Hlt & _ & _ & Hmerged & _).
  destruct (Hmerged (JDict [("A"%string, JInt 2)])
              {| node_id := "client"; clock := <["A"%string := 2]> ∅ |} eq_refl eq_refl)
    as [Hout _].
  cbv zeta. split; [exact Hout|]. split; [|exact Hlt].
  cbv zeta in Hout. rewrite Hout. vm_compute. reflexivity.
Defined.

(** C4, as stated, fails. The answer to a request that carries a clock
    names the relationship 'happens-after', which is none of before, after,
    equal, concurrent and no_client_clock. *)
Lemma relationship_outside_spec_names :
  snd (do_POST "/add" (request_with sent) initial) =
    Ok {| status := 200;
          payload :=
            Answer (NInt 3) served
              {| causality_server_clock := served;
                 causality_client_clock := Some (clock sent_clock);
                 relationship := "happens-after" |} |} ∧
  "happens-after"%string ∉
    ["before"; "after"; "equal"; "concurrent"; "no_client_clock"]%string.
Proof.
  split; [vm_compute; reflexivity|].
  intros Hin. repeat (apply elem_of_cons in Hin as [Hin|Hin]; [discriminate Hin|]).
  by apply elem_of_nil in Hin.
Qed.

(** C4, amended. The relationship of every answer is one of
    'happens-before', 'happens-after', 'equal', 'concurrent' and
    'no_client_clock'; the results of [compare] are the first four, and
    each of the four is the result of some comparison. *)
Theorem relationship_names :
  (∀ (path : string) (request : value) (st : state) (r : response)
     (res : number) (vc : gmap string Z) (c : causality),
     snd (do_POST path request st) = Ok r →
     payload r = Answer res vc c →
     relationship c ∈
       ["happens-before"; "happens-after"; "equal"; "concurrent";
        "no_client_clock"]%string) ∧
  (∀ a b : VectorClock,
     compare a b ∈ ["happens-before"; "happens-after"; "equal"; "concurrent"]%string) ∧
  (∀ rel : relation4, ∃ a b : VectorClock, compare a b = label rel).
Proof.
  assert (Hcompare : ∀ a b : VectorClock,
    compare a b ∈ ["happens-before"; "happens-after"; "equal"; "concurrent"]%string).
  { intros a b. rewrite compare_label.
    destruct (spec_compare a b); simpl; repeat constructor. }
  assert (Hroute : ∀ op request cc server r res vc c,
    route op request cc server = Ok r →
    payload r = Answer res vc c →
    relationship c ∈
      ["happens-before"; "happens-after"; "equal"; "concurrent";
       "no_client_clock"]%string).
  { intros op request cc server r res vc c Hr Hp.
    apply route_reply in Hr. rewrite Hp in Hr. destruct Hr as (_ & _ & ->).
    destruct cc as [c'|]; [|repeat constructor].
    specialize (Hcompare server c').
    apply list_elem_of_In. apply list_elem_of_In in Hcompare.
    simpl in *. tauto. }
  split; [|split; [exact Hcompare|]].
  - intros path request st r res vc c. unfold do_POST.
    destruct (negb (truthy request)).
    { simpl. intros [= <-]. discriminate. }
    destruct (contains "vector_clock" request) as [has|e]; [|discriminate].
    destruct (if has then receive_clock request st else (None, st)) as [cc st1].
    destruct (String.eqb path "/add");
      [|destruct (String.eqb path "/multiply")]; cbn [snd].
    + apply Hroute.
    + apply Hroute.
    + intros [= <-]. discriminate.
  - intros [ | | | ].
    + exists clock_B, clock_B. vm_compute. reflexivity.
    + exists clock_A, clock_B. vm_compute. reflexivity.
    + exists clock_B, clock_A. vm_compute. reflexivity.
    + exists clock_A, (increment clock_fresh None). vm_compute. reflexivity.
Qed.

Lemma relationship_names_witness :
  "happens-after"%string ∈
    ["happens-before"; "happens-after"; "equal"; "concurrent";
     "no_client_clock"]%string.
Proof.
  exact (proj1 relationship_names "/add" (request_with sent) initial
    {| status := 200;
       payload :=
         Answer (NInt 3) served
           {| causality_server_clock := served;
              causality_client_clock := Some (clock sent_clock);
              relationship := "happens-after" |} |}
    (NInt 3) served
    {| causality_server_clock := served;
       causality_client_clock := Some (clock sent_clock);
       relationship := "happens-after" |}
    ltac:(vm_compute; reflexivity) eq_refl).
Defined.

(** C9. On the server clock [{"server": 0}], a request that carries the
    clock [{"A": 2, "B": 1}] leaves the server clock at
    [{"A": 2, "B": 1, "server": 1}]: the merge, then one increment of the
    server's own counter. That clock compared with the submitted one
    yields [after] (spelled 'happens-after'), and this is the relationship
    of the answer that a request with valid operands on /add or /multiply
    receives. *)
Theorem do_POST_scenario (path : string) (d : list (string * value)) :
  dict_get "vector_clock" d = Some sent →
  let out := do_POST path (JDict d) initial in
  clock (server_clock initial) = counters [("server"%string, 0)] ∧
  fst out = {| server_clock := {| node_id := "server"; clock := served |};
               printed := [] |} ∧
  served = clock (increment (update (server_clock initial) sent_clock) None) ∧
  from_dict sent "client" = Ok sent_clock ∧
  compare (server_clock (fst out)) sent_clock = label after ∧
  (∀ x_val y_val,
     path = "/add"%string ∨ path = "/multiply"%string →
     validate_operands (JDict d) = Ok (inr (x_val, y_val)) →
     ∃ res,
       snd out =
         Ok {| status := 200;
               payload :=
                 Answer res served
                   {| causality_server_clock := served;
                      causality_client_clock := Some (clock sent_clock);
                      relationship := label after |} |}).
Proof.
  intros Hget. cbv zeta.
  assert (Hd : d ≠ []) by (by destruct d).
  rewrite (do_POST_dict path d initial Hd). cbv zeta.
  assert (Hrecv : (if dict_has "vector_clock" d
                   then receive_clock (JDict d) initial else (None, initial))
                  = (Some sent_clock,
                     {| server_clock := update (server_clock initial) sent_clock;
                        printed := [] |})).
  { unfold dict_has, receive_clock, getitem. by rewrite Hget. }
  rewrite Hrecv. cbn [fst snd server_clock printed].
  assert (Hserved : increment (update (server_clock initial) sent_clock) None
                    = {| node_id := "server"; clock := served |}).
  { vm_compute. reflexivity. }
  rewrite Hserved.
  assert (Hafter : compare {| node_id := "server"; clock := served |} sent_clock
                   = label after).
  { vm_compute. reflexivity. }
  split; [reflexivity|]. split; [reflexivity|]. split; [reflexivity|].
  split; [reflexivity|]. split; [exact Hafter|].
  intros x_val y_val [-> | ->] Hv; cbn [String.eqb Ascii.eqb Bool.eqb];
    destruct (route_answered (SFadd prec emax) (JDict d) (Some sent_clock)
                {| node_id := "server"; clock := served |} x_val y_val Hv) as [res1 H1];
    destruct (route_answered (SFmul prec emax) (JDict d) (Some sent_clock)
                {| node_id := "server"; clock := served |} x_val y_val Hv) as [res2 H2];
    cbn [option_map clock] in H1, H2; rewrite Hafter in H1, H2; eauto.
Qed.

Lemma do_POST_scenario_witness :
  fst (do_POST "/add" (request_with sent) initial) =
    {| server_clock := {| node_id := "server"; clock := served |}; printed := [] |} ∧
  compare (server_clock (fst (do_POST "/add" (request_with sent) initial))) sent_clock
    = label after ∧
  ∃ res,
    snd (do_POST "/add" (request_with sent) initial) =
      Ok {| status := 200;
            payload :=
              Answer res served
                {| causality_server_clock := served;
                   causality_client_clock := Some (clock sent_clock);
                   relationship := label after |} |}.
Proof.
  pose proof (do_POST_scenario "/add"
    (operands ++ [("vector_clock"%string, sent)]) eq_refl)
    as (_ & Hst & _ & _ & Hafter & Hans).
  split; [exact Hst|]. split; [exact Hafter|].
  refine (Hans (S754_finite false 4503599627370496 (-52))
               (S754_finite false 4503599627370496 (-51)) _ _).
  - by left.
  - vm_compute. reflexivity.
Defined.

(** * Further properties of the code *)

(** ** Order between clocks *)

Section order.

Implicit Types (a b c : VectorClock) (L : string).

Lemma ahead_iff a b : ahead a b ↔ ∃ L, counter b L < counter a L.
Proof.
  split; [intros (L & _ & Hlt); by exists L|].
  intros (L & Hlt). exists L. split; [|done].
  destruct (decide (L ∈ labels a b)) as [|Hout]; [done|].
  apply counter_outside in Hout as [Ha Hb]. lia.
Qed.

Lemma not_ahead_dominated a b : ¬ ahead a b ↔ dominated a b.
Proof.
  rewrite ahead_iff. unfold dominated. split.
  - intros Hno L. destruct (Z.le_gt_cases (counter a L) (counter b L)); [done|].
    exfalso. apply Hno. exists L. lia.
  - intros Hle (L & Hlt). specialize (Hle L). lia.
Qed.

Lemma aheadb_false a b : aheadb a b = false ↔ dominated a b.
Proof.
  rewrite <- not_ahead_dominated, <- aheadb_spec. by destruct (aheadb a b).
Qed.

Lemma compare_before_iff a b :
  compare a b = "happens-before"%string ↔ dominated a b ∧ ahead b a.
Proof.
  rewrite compare_label. unfold spec_compare.
  rewrite <- aheadb_false, <- aheadb_spec.
  destruct (aheadb a b), (aheadb b a); simpl; split;
    try discriminate; try done; intros [? ?]; discriminate.
Qed.

Lemma compare_after_iff a b :
  compare a b = "happens-after"%string ↔ dominated b a ∧ ahead a b.
Proof.
  rewrite compare_label. unfold spec_compare.
  rewrite <- aheadb_false, <- aheadb_spec.
  destruct (aheadb a b), (aheadb b a); simpl; split;
    try discriminate; try done; intros [? ?]; discriminate.
Qed.

Lemma compare_equal_iff a b :
  compare a b = "equal"%string ↔ ∀ L, counter a L = counter b L.
Proof.
  rewrite compare_label. unfold spec_compare.
  transitivity (aheadb a b = false ∧ aheadb b a = false).
  - destruct (aheadb a b), (aheadb b a); simpl; split;
      try discriminate; try done; intros [? ?]; discriminate.
  - rewrite !aheadb_false. unfold dominated. split.
    + intros [Hab Hba] L. specialize (Hab L). specialize (Hba L). lia.
    + intros Heq. split; intros L; rewrite (Heq L); lia.
Qed.

(** A clock that dominates another one is after it or equal to it. *)
Lemma compare_dominating a b :
  dominated b a →
  compare a b = "equal"%string ∨ compare a b = "happens-after"%string.
Proof.
  intros Hdom. rewrite compare_label. unfold spec_compare.
  apply aheadb_false in Hdom. rewrite Hdom.
  destruct (aheadb a b); simpl; auto.
Qed.

(** [compare] reads the counters of its arguments only. *)
Lemma compare_ext a a' b b' :
  clock a = clock a' → clock b = clock b' → compare a b = compare a' b'.
Proof.
  intros Ha Hb. rewrite !compare_label.
  unfold spec_compare, aheadb, labels, counter. by rewrite Ha, Hb.
Qed.

Lemma compare_swap_after a b :
  compare a b = "happens-after"%string → compare b a = "happens-before"%string.
Proof. rewrite compare_after_iff, compare_before_iff. tauto. Qed.

Lemma non_negative_counter a L : non_negative a → 0 ≤ counter a L.
Proof.
  intros Hnn. unfold counter. destruct (clock a !! L) as [v|] eqn:Hv; simpl; [|lia].
  exact (Hnn L v Hv).
Qed.

Lemma counter_present a L v : clock a !! L = Some v → counter a L = v.
Proof. unfold counter. by intros ->. Qed.

Lemma foldl_zero_lookup (nodes : list string) (acc : gmap string Z) L :
  foldl (fun (m : gmap string Z) node => <[node := 0]> m) acc nodes !! L =
    if decide (L ∈ nodes) then Some 0 else acc !! L.
Proof.
  revert acc. induction nodes as [|n nodes IH]; intros acc; cbn [foldl].
  - rewrite decide_False; [done|]. apply not_elem_of_nil.
  - rewrite IH. destruct (decide (L ∈ nodes)) as [Hin|Hout].
    + rewrite decide_True; [done|]. by apply list_elem_of_further.
    + destruct (decide (n = L)) as [->|Hne].
      * rewrite lookup_insert_eq. rewrite decide_True; [done|]. apply list_elem_of_here.
      * rewrite lookup_insert_ne by done.
        rewrite decide_False; [done|].
        intros [Heq|Hin]%elem_of_cons; [by subst|done].
Qed.

(** The general form of [increment_lookup], for either call. *)
Lemma increment_lookup_at a (node : option string) L :
  clock (increment a node) !! L =
    if decide (default (node_id a) node = L) then Some (counter a L + 1)
    else clock a !! L.
Proof.
  unfold increment, counter; simpl.
  destruct (clock a !! default (node_id a) node) as [v|] eqn:Hown; case_decide; subst;
    simplify_map_eq; try done.
Qed.

End order.

(** X1. A clock built by the constructor carries the counter 0 on exactly
    the labels of the list it is given, or on its owner's label alone when
    the list is omitted or empty; a list that leaves the owner out leaves
    the clock without an entry for its owner. Two clocks so built compare
    'equal' whatever their owners and label sets. *)
Theorem init_zero_counters (owner owner' : string) (nodes nodes' : option (list string))
    (L : string) :
  clock (__init__ owner nodes) !! L
    = (if decide (L ∈ initial_labels owner nodes) then Some 0 else None) ∧
  counter (__init__ owner nodes) L = 0 ∧
  compare (__init__ owner nodes) (__init__ owner' nodes') = "equal"%string.
Proof.
  assert (Hlookup : ∀ o ns K, clock (__init__ o ns) !! K
            = (if decide (K ∈ initial_labels o ns) then Some 0 else None)).
  { intros o ns K.
    assert (Hone : (<[o := 0]> ∅ : gmap string Z) !! K
              = (if decide (K ∈ [o]) then Some 0 else None)).
    { destruct (decide (o = K)) as [->|Hne].
      - rewrite lookup_insert_eq, decide_True; [done|apply list_elem_of_here].
      - rewrite lookup_insert_ne, lookup_empty by done.
        rewrite decide_False; [done|].
        intros [Heq|Hin]%elem_of_cons; [by subst|by apply elem_of_nil in Hin]. }
    destruct ns as [[|n ns]|]; cbn [__init__ clock initial_labels]; [exact Hone| |exact Hone].
    rewrite (foldl_zero_lookup (n :: ns) ∅ K). by rewrite lookup_empty. }
  assert (Hzero : ∀ o ns K, counter (__init__ o ns) K = 0).
  { intros o ns K. unfold counter. rewrite Hlookup. by case_decide. }
  split; [apply Hlookup|]. split; [apply Hzero|].
  apply compare_equal_iff. intros K. by rewrite !Hzero.
Qed.

(** X2. An increment adds 1 to the counter of the label it is given (its
    owner's by default), creating the label when it is absent, and leaves
    every other entry as it was; the incremented clock compares
    'happens-after' with the clock before, which compares 'happens-before'
    with it. *)
Theorem increment_advances (a : VectorClock) (node : option string) :
  let target := default (node_id a) node in
  clock (increment a node) !! target = Some (counter a target + 1) ∧
  (∀ L, L ≠ target → clock (increment a node) !! L = clock a !! L) ∧
  node_id (increment a node) = node_id a ∧
  compare (increment a node) a = "happens-after"%string ∧
  compare a (increment a node) = "happens-before"%string.
Proof.
  cbv zeta.
  assert (Hcounter : ∀ L, counter (increment a node) L =
            if decide (default (node_id a) node = L) then counter a L + 1 else counter a L).
  { intros L. unfold counter at 1. rewrite increment_lookup_at. by case_decide. }
  assert (Hafter : compare (increment a node) a = "happens-after"%string).
  { apply compare_after_iff. split.
    - intros L. rewrite Hcounter. case_decide; lia.
    - apply ahead_iff. exists (default (node_id a) node).
      rewrite Hcounter, decide_True by done. lia. }
  split; [by rewrite increment_lookup_at, decide_True|].
  split; [intros L HL; by rewrite increment_lookup_at, decide_False|].
  split; [done|]. split; [exact Hafter|]. by apply compare_swap_after.
Qed.

(** X3. 'happens-before' and 'happens-after' are transitive, and a clock
    that compares 'equal' with another one compares alike with every third
    clock. *)
Theorem compare_transitive (a b c : VectorClock) :
  (compare a b = "happens-before"%string → compare b c = "happens-before"%string →
     compare a c = "happens-before"%string) ∧
  (compare a b = "happens-after"%string → compare b c = "happens-after"%string →
     compare a c = "happens-after"%string) ∧
  (compare a b = "equal"%string → compare a c = compare b c).
Proof.
  split; [|split].
  - rewrite !compare_before_iff, !ahead_iff.
    intros [Hab (L & Hlt)] [Hbc _]. split.
    + intros K. specialize (Hab K). specialize (Hbc K). lia.
    + exists L. specialize (Hbc L). lia.
  - rewrite !compare_after_iff, !ahead_iff.
    intros [Hba (L & Hlt)] [Hcb _]. split.
    + intros K. specialize (Hba K). specialize (Hcb K). lia.
    + exists L. specialize (Hcb L). lia.
  - rewrite compare_equal_iff. intros Heq.
    rewrite !compare_label. unfold spec_compare.
    assert (H1 : aheadb a c = aheadb b c).
    { apply eq_true_iff_eq. rewrite !aheadb_spec, !ahead_iff.
      split; intros (L & Hlt); exists L; specialize (Heq L); lia. }
    assert (H2 : aheadb c a = aheadb c b).
    { apply eq_true_iff_eq. rewrite !aheadb_spec, !ahead_iff.
      split; intros (L & Hlt); exists L; specialize (Heq L); lia. }
    by rewrite H1, H2.
Qed.

Lemma compare_transitive_witness :
  compare (__init__ "A" None) clock_B = "happens-before"%string ∧
  compare (increment clock_B None) (__init__ "A" None) = "happens-after"%string ∧
  compare (__init__ "A" None) clock_A = compare (__init__ "B" None) clock_A.
Proof.
  split; [|split].
  - apply (proj1 (compare_transitive (__init__ "A" None) clock_A clock_B));
      vm_compute; reflexivity.
  - apply (proj1 (proj2 (compare_transitive (increment clock_B None) clock_A
                           (__init__ "A" None)))); vm_compute; reflexivity.
  - apply (proj2 (proj2 (compare_transitive (__init__ "A" None) (__init__ "B" None)
                           clock_A))). vm_compute. reflexivity.
Defined.

(** X4. [==] between clocks compares the counters as dicts and ignores the
    owners. Clocks that are [==] compare 'equal'; the converse needs the
    same label sets, because [compare] reads an absent label as 0: it
    yields 'equal' exactly when the counters agree on every label under
    that reading, as between the fresh clocks of "A" and of "B", which are
    not [==]. *)
Theorem eq_and_compare (a b : VectorClock) :
  (__eq__ a b = true ↔ clock a = clock b) ∧
  (__eq__ a b = true → compare a b = "equal"%string) ∧
  (compare a b = "equal"%string ↔ ∀ L, counter a L = counter b L) ∧
  (compare a b = "equal"%string → dom (clock a) = dom (clock b) → __eq__ a b = true) ∧
  (compare (__init__ "A" None) (__init__ "B" None) = "equal"%string ∧
   __eq__ (__init__ "A" None) (__init__ "B" None) = false).
Proof.
  unfold __eq__. rewrite bool_decide_eq_true.
  split; [done|]. split; [|split; [apply compare_equal_iff|split]].
  - intros Heq. apply compare_equal_iff. intros L. unfold counter. by rewrite Heq.
  - rewrite compare_equal_iff. intros Heq Hdom. apply map_eq. intros L.
    specialize (Heq L). unfold counter in Heq.
    destruct (clock a !! L) as [v|] eqn:Ha, (clock b !! L) as [w|] eqn:Hb;
      simpl in Heq; [by subst| | |done].
    + apply elem_of_dom_2 in Ha. rewrite Hdom in Ha.
      apply elem_of_dom in Ha as [? ?]. congruence.
    + apply elem_of_dom_2 in Hb. rewrite <- Hdom in Hb.
      apply elem_of_dom in Hb as [? ?]. congruence.
  - split; vm_compute; reflexivity.
Qed.

Lemma eq_and_compare_witness :
  __eq__ clock_B (update clock_B clock_A) = true ∧
  compare clock_B (update clock_B clock_A) = "equal"%string.
Proof.
  assert (H : __eq__ clock_B (update clock_B clock_A) = true).
  { apply (proj1 (eq_and_compare clock_B (update clock_B clock_A))).
    vm_compute. reflexivity. }
  split; [exact H|].
  exact (proj1 (proj2 (eq_and_compare clock_B (update clock_B clock_A))) H).
Defined.

(** ** More on the merge *)

(** X5. Two clocks merged into a third one leave the same clock in either
    order of arrival, for all clocks. *)
Theorem update_order_of_arrival (a b c : VectorClock) :
  update (update a b) c = update (update a c) b.
Proof.
  assert (Hclock : clock (update (update a b) c) = clock (update (update a c) b)).
  { apply map_eq. intros L. rewrite !update_lookup, !update_counter.
    destruct (clock b !! L) as [v|], (clock c !! L) as [w|]; try done.
    f_equal. lia. }
  destruct (update (update a b) c) as [n1 c1] eqn:H1.
  destruct (update (update a c) b) as [n2 c2] eqn:H2.
  assert (n1 = n2) as ->.
  { change (node_id {| node_id := n1; clock := c1 |}
            = node_id {| node_id := n2; clock := c2 |}).
    by rewrite <- H1, <- H2. }
  simpl in Hclock. by rewrite Hclock.
Qed.

Lemma update_dom (a b : VectorClock) :
  dom (clock (update a b)) = dom (clock a) ∪ dom (clock b).
Proof.
  apply set_eq. intros L. rewrite elem_of_union, !elem_of_dom, update_lookup.
  destruct (clock b !! L) as [v|]; split.
  - intros _. right. by eexists.
  - intros _. by eexists.
  - intros H. by left.
  - intros [H|[x Hx]]; [done|discriminate Hx].
Qed.

Lemma update_same_clock (a b : VectorClock) :
  clock (update a b) = clock a →
  update a b = a.
Proof. destruct a as [n m]. unfold update. simpl. by intros ->. Qed.

Lemma update_self (a : VectorClock) : update a a = a.
Proof.
  apply update_same_clock. apply map_eq. intros L. rewrite update_lookup.
  unfold counter. destruct (clock a !! L) as [v|]; [|done]. simpl. f_equal. lia.
Qed.

(** X6. A merge keeps the owner and gives the clock the union of the two
    label sets: no label is ever removed. Merging a clock into itself, or
    merging a clock without labels, changes nothing. *)
Theorem update_labels (a b : VectorClock) :
  node_id (update a b) = node_id a ∧
  dom (clock (update a b)) = dom (clock a) ∪ dom (clock b) ∧
  update a a = a ∧
  (clock b = ∅ → update a b = a).
Proof.
  split; [done|]. split; [apply update_dom|]. split; [apply update_self|].
  intros Hb. apply update_same_clock. apply map_eq. intros L.
  rewrite update_lookup, Hb. by rewrite lookup_empty.
Qed.

Lemma update_labels_witness :
  update clock_A {| node_id := "B"; clock := ∅ |} = clock_A.
Proof.
  apply (proj2 (proj2 (proj2 (update_labels clock_A {| node_id := "B"; clock := ∅ |})))).
  reflexivity.
Defined.

Lemma update_dominates_other (a b : VectorClock) :
  non_negative a → dominated b (update a b).
Proof.
  intros Hnn L. rewrite update_counter. unfold counter at 1.
  destruct (clock b !! L) as [v|]; simpl; [lia|].
  by apply non_negative_counter.
Qed.

(** X7. After a merge the clock dominates the one it had been: compared
    with it, it is 'equal' or 'happens-after'. When it held no negative
    counter it dominates the merged clock as well, and compares 'equal' or
    'happens-after' with it too: never 'happens-before', never
    'concurrent'. *)
Theorem update_dominates (a b : VectorClock) :
  dominated a (update a b) ∧
  (compare (update a b) a = "equal"%string ∨
   compare (update a b) a = "happens-after"%string) ∧
  (non_negative a →
     dominated b (update a b) ∧
     (compare (update a b) b = "equal"%string ∨
      compare (update a b) b = "happens-after"%string)).
Proof.
  assert (Ha : dominated a (update a b)) by (intros L; apply update_counter_le).
  split; [exact Ha|]. split; [by apply compare_dominating|].
  intros Hnn. pose proof (update_dominates_other a b Hnn) as Hb.
  split; [exact Hb|]. by apply compare_dominating.
Qed.

Lemma update_dominates_witness :
  compare (update clock_A clock_B) clock_B = "equal"%string ∨
  compare (update clock_A clock_B) clock_B = "happens-after"%string.
Proof.
  apply (proj2 (proj2 (update_dominates clock_A clock_B))).
  apply (bool_decide_unpack (non_negative clock_A)). vm_compute. exact I.
Defined.

(** X8. Merging is associative on the counters when the last clock holds
    no negative counter: merging [b], then [c], is merging the merge of
    [c] into [b]. *)
Theorem update_associative (a b c : VectorClock) :
  non_negative c →
  clock (update (update a b) c) = clock (update a (update b c)).
Proof.
  intros Hc. apply map_eq. intros L.
  rewrite (update_lookup (update a b) c), (update_lookup a (update b c)).
  rewrite (update_lookup b c), (update_counter a b), (update_lookup a b).
  destruct (clock c !! L) as [w|] eqn:HcL, (clock b !! L) as [v|] eqn:HbL;
    unfold counter; rewrite ?HbL; simpl; try done; f_equal.
  - lia.
  - specialize (Hc L w HcL). simpl in Hc. lia.
Qed.

Lemma update_associative_witness :
  clock (update (update clock_negative clock_A) clock_B)
    = clock (update clock_negative (update clock_A clock_B)).
Proof.
  apply update_associative.
  apply (bool_decide_unpack (non_negative clock_B)). vm_compute. exact I.
Defined.

(** ** Export and import *)

Section export.

Implicit Types (l : list (string * Z)) (m : gmap string Z).

Lemma dict_get_ints key l :
  dict_get key (map (fun item => (fst item, JInt (snd item))) l)
    = JInt <$> (list_to_map l : gmap string Z) !! key.
Proof.
  induction l as [|[k z] l IH]; simpl; [by rewrite lookup_empty|].
  destruct (String.eqb_spec k key) as [->|Hne].
  - by rewrite lookup_insert_eq.
  - by rewrite lookup_insert_ne.
Qed.

Lemma int_items_ints l acc : ∃ m, int_items (map (fun item => (fst item, JInt (snd item))) l) acc = Ok m.
Proof.
  revert acc. induction l as [|[k z] l IH]; intros acc; simpl; [by eexists|].
  apply IH.
Qed.

Lemma keys_ints l : keys (map (fun item => (fst item, JInt (snd item))) l) = l.*1.
Proof. unfold keys. induction l as [|[k z] l IH]; simpl; [done|]. by rewrite IH. Qed.

Lemma dict_get_of_clock key m :
  dict_get key (map (fun item => (fst item, JInt (snd item))) (map_to_list m))
    = JInt <$> m !! key.
Proof. by rewrite dict_get_ints, list_to_map_to_list. Qed.

(** The counters exported are imported as they are. *)
Lemma from_dict_of_clock m owner :
  from_dict (wire.of_clock m) owner = Ok {| node_id := owner; clock := m |}.
Proof.
  unfold from_dict, wire.of_clock.
  destruct (int_items_ints (map_to_list m) ∅) as [c Hc]. rewrite Hc. simpl.
  do 2 f_equal. apply map_eq. intros key.
  rewrite (int_items_lookup _ ∅ c key (eq_ind_r NoDup (NoDup_fst_map_to_list m)
             (keys_ints (map_to_list m))) Hc).
  rewrite dict_get_of_clock. destruct (m !! key); simpl; [done|apply lookup_empty].
Qed.

End export.

(** X9. A clock exported with [to_dict], passed through the JSON codec and
    imported with [from_dict] is the clock of the new owner with the same
    counters, negative ones included: it is [==] to the exported clock and
    compares 'equal' with it. *)
Theorem to_dict_from_dict (c : VectorClock) (owner : string) :
  from_dict (wire.of_clock (to_dict c)) owner = Ok {| node_id := owner; clock := clock c |} ∧
  __eq__ c {| node_id := owner; clock := clock c |} = true ∧
  compare c {| node_id := owner; clock := clock c |} = "equal"%string.
Proof.
  split; [apply from_dict_of_clock|]. split.
  - unfold __eq__. by apply bool_decide_eq_true.
  - apply compare_equal_iff. done.
Qed.

(** X10. The import converts the values in the order of the items and
    stops at the first that [int] refuses: it raises that exception,
    whatever the items after it hold. *)
Theorem from_dict_first_refusal (before : list (string * value)) (key : string)
    (v : value) (after : list (string * value)) (owner : string) (e : exn) :
  Forall (fun item => raises (int (snd item)) = false) before →
  int v = Raise e →
  from_dict (JDict (before ++ (key, v) :: after)) owner = Raise e.
Proof.
  intros Hbefore Hv. unfold from_dict.
  assert (Hitems : ∀ acc, int_items (before ++ (key, v) :: after) acc = Raise e).
  { induction Hbefore as [|[k w] before Hw _ IH]; intros acc; simpl.
    - by rewrite Hv.
    - simpl in Hw. destruct (int w) as [z|]; [|discriminate]. simpl. apply IH. }
  by rewrite Hitems.
Qed.

Lemma from_dict_first_refusal_witness :
  from_dict (JDict [("A"%string, JInt 1); ("B"%string, JNull); ("C"%string, JStr "soon")])
    "client" = Raise TypeError.
Proof.
  apply (from_dict_first_refusal [("A"%string, JInt 1)] "B" JNull
           [("C"%string, JStr "soon")] "client" TypeError).
  - repeat constructor.
  - reflexivity.
Defined.

(** ** The handler over any request *)

Section serving.

Implicit Types (path : string) (request : value) (st : state).

Lemma contains_raise (key : string) request e :
  contains key request = Raise e → e = TypeError.
Proof. destruct request; simpl; try discriminate; by intros [= <-]. Qed.

Lemma do_POST_refused path request st :
  accepted request = false →
  do_POST path request st =
    (st, if truthy request then Raise TypeError
         else Ok {| status := 400; payload := Failure "Invalid JSON" None |}).
Proof.
  unfold accepted, do_POST. destruct (truthy request); simpl; [|done].
  destruct (contains "vector_clock" request) as [has|e] eqn:Hc; simpl; [discriminate|].
  intros _. by rewrite (contains_raise _ _ _ Hc).
Qed.

Lemma do_POST_accepted path request st :
  accepted request = true →
  ∃ has_clock,
    contains "vector_clock" request = Ok has_clock ∧
    do_POST path request st =
      let received :=
        if has_clock then receive_clock request st else (None, st) in
      let server := increment (server_clock (snd received)) None in
      ({| server_clock := server; printed := printed (snd received) |},
       reply_on path request (fst received) server).
Proof.
  unfold accepted, do_POST, reply_on. destruct (truthy request); simpl; [|discriminate].
  destruct (contains "vector_clock" request) as [has|e]; simpl; [|discriminate].
  intros _. exists has. split; [done|].
  destruct (if has then receive_clock request st else (None, st)) as [cc st1].
  cbn [fst snd server_clock]. by repeat case_match.
Qed.

(** What the [try] block leaves of the server clock. *)
Lemma received_clock (has_clock : bool) request st :
  let received := if has_clock then receive_clock request st else (None, st) in
  node_id (server_clock (snd received)) = node_id (server_clock st) ∧
  dominated (server_clock st) (server_clock (snd received)) ∧
  dom (clock (server_clock st)) ⊆ dom (clock (server_clock (snd received))) ∧
  (non_negative (server_clock st) → non_negative (server_clock (snd received))) ∧
  (∃ errors, printed (snd received) = printed st ++ errors).
Proof.
  cbv zeta. destruct has_clock; cbn [snd].
  - unfold receive_clock.
    destruct (bind (getitem request "vector_clock") _) as [cc|e]; cbn [snd server_clock printed].
    + split; [done|]. split; [intros L; apply update_counter_le|].
      split; [rewrite update_dom; apply union_subseteq_l|].
      split; [apply update_non_negative|]. exists []. by rewrite app_nil_r.
    + split; [done|]. split; [intros L; lia|]. split; [done|]. split; [done|].
      by exists [e].
  - split; [done|]. split; [intros L; lia|]. split; [done|]. split; [done|].
    exists []. by rewrite app_nil_r.
Qed.

Lemma increment_counter (a : VectorClock) L :
  counter (increment a None) L =
    if decide (node_id a = L) then counter a L + 1 else counter a L.
Proof. unfold counter at 1. rewrite increment_lookup. by case_decide. Qed.

Lemma increment_dom (a : VectorClock) :
  dom (clock (increment a None)) = {[node_id a]} ∪ dom (clock a).
Proof.
  apply set_eq. intros L. rewrite elem_of_union, elem_of_singleton, !elem_of_dom.
  rewrite increment_lookup. case_decide as Hown; split.
  - intros _. by left.
  - intros _. by eexists.
  - intros H. by right.
  - intros [Heq|H]; [by subst|done].
Qed.

(** The clock transaction of an accepted request. *)
Lemma do_POST_transaction path request st :
  accepted request = true →
  let server := server_clock st in
  let server' := server_clock (fst (do_POST path request st)) in
  node_id server' = node_id server ∧
  dominated server server' ∧
  counter server (node_id server) + 1 ≤ counter server' (node_id server) ∧
  dom (clock server) ⊆ dom (clock server') ∧
  node_id server ∈ dom (clock server') ∧
  (∃ errors, printed (fst (do_POST path request st)) = printed st ++ errors).
Proof.
  intros Hacc. cbv zeta.
  destruct (do_POST_accepted path request st Hacc) as (has & _ & ->).
  cbv zeta. cbn [fst server_clock printed].
  destruct (received_clock has request st) as (Hid & Hdom & Hlabels & _ & Hprinted).
  cbv zeta in Hid, Hdom, Hlabels, Hprinted.
  set (received := if has then receive_clock request st else (None, st)) in *.
  split; [done|]. split; [|split; [|split; [|split]]].
  - intros L. rewrite increment_counter. specialize (Hdom L). case_decide; lia.
  - rewrite increment_counter, Hid, decide_True by done.
    specialize (Hdom (node_id (server_clock st))). lia.
  - rewrite increment_dom. etrans; [exact Hlabels|]. apply union_subseteq_r.
  - rewrite increment_dom, Hid. apply elem_of_union. left. by apply elem_of_singleton.
  - exact Hprinted.
Qed.

End serving.

(** X11. The handler leaves its state as it was exactly on the requests it
    refuses before the clock transaction: a body that is false ([None], an
    empty dict, list or str, a zero, [False]), answered with status 400 and
    'Invalid JSON', and a body on which [in] is not defined (a number that
    is not zero, [True]), on which it raises [TypeError]. Every other
    request changes the server clock. *)
Theorem do_POST_state_unchanged (path : string) (request : value) (st : state) :
  (fst (do_POST path request st) = st ↔ accepted request = false) ∧
  (accepted request = false →
     snd (do_POST path request st) =
       if truthy request then Raise TypeError
       else Ok {| status := 400; payload := Failure "Invalid JSON" None |}) ∧
  (accepted request = false ↔
     match request with
     | JDict d => d = []
     | JList l => l = []
     | JStr s => s = ""%string
     | JNull | JBool _ | JInt _ | JFloat _ => True
     end).
Proof.
  split; [|split].
  - split.
    + intros Hsame. destruct (accepted request) eqn:Hacc; [exfalso|done].
      pose proof (do_POST_transaction path request st Hacc) as (_ & _ & Hlt & _).
      cbv zeta in Hlt. rewrite Hsame in Hlt. lia.
    + intros Hacc. by rewrite do_POST_refused.
  - intros Hacc. by rewrite do_POST_refused.
  - unfold accepted.
    destruct request as [|b|z|f|s|l|d]; simpl; rewrite ?andb_true_r, ?andb_false_r;
      try (split; done).
    + destruct (String.eqb_spec s ""); simpl; split; try done; discriminate.
    + destruct l; simpl; split; try done; discriminate.
    + destruct d; simpl; split; try done; discriminate.
Qed.

Lemma do_POST_state_unchanged_witness :
  snd (do_POST "/add" (JInt 7) initial) = Raise TypeError ∧
  fst (do_POST "/add" (JInt 7) initial) = initial.
Proof.
  split.
  - exact (proj1 (proj2 (do_POST_state_unchanged "/add" (JInt 7) initial)) eq_refl).
  - apply (proj1 (do_POST_state_unchanged "/add" (JInt 7) initial)). reflexivity.
Defined.

(** X12. No request takes anything back from the server clock: whatever
    the request and the route, the owner is kept, no counter decreases, no
    label is removed and nothing printed is lost; an accepted request adds
    at least 1 to the server's own counter, whose label is then present. *)
Theorem do_POST_monotone (path : string) (request : value) (st : state) :
  let server := server_clock st in
  let server' := server_clock (fst (do_POST path request st)) in
  node_id server' = node_id server ∧
  dominated server server' ∧
  dom (clock server) ⊆ dom (clock server') ∧
  (∃ errors, printed (fst (do_POST path request st)) = printed st ++ errors) ∧
  (accepted request = true →
     counter server (node_id server) + 1 ≤ counter server' (node_id server) ∧
     node_id server ∈ dom (clock server')).
Proof.
  cbv zeta. destruct (accepted request) eqn:Hacc.
  - pose proof (do_POST_transaction path request st Hacc)
      as (Hid & Hdom & Hown & Hlabels & Hin & Hprinted).
    cbv zeta in *. repeat split; try done.
  - rewrite do_POST_refused by done. cbn [fst].
    split; [done|]. split; [intros L; lia|]. split; [done|].
    split; [exists []; by rewrite app_nil_r|]. discriminate.
Qed.

Lemma do_POST_monotone_witness :
  counter (server_clock initial) "server" + 1
    ≤ counter (server_clock (fst (do_POST "/health" (JList [JNull]) initial))) "server".
Proof.
  apply (proj2 (proj2 (proj2 (proj2
    (do_POST_monotone "/health" (JList [JNull]) initial))))). reflexivity.
Defined.

Section sessions.

Implicit Types (path : string) (request : value) (st : state).

Lemma do_POST_own_counter_exact path request st :
  accepted request = true →
  contains "vector_clock" request = Ok false →
  server_clock (fst (do_POST path request st)) = increment (server_clock st) None.
Proof.
  intros Hacc Hno.
  destruct (do_POST_accepted path request st Hacc) as (has & Hhas & ->).
  rewrite Hno in Hhas. by injection Hhas as <-.
Qed.

(** The server clock once merged and incremented is after the clock it
    has merged. *)
Lemma merged_incremented_after (server client_clock : VectorClock) :
  non_negative server →
  compare (increment (update server client_clock) None) client_clock
    = "happens-after"%string.
Proof.
  intros Hnn. apply compare_after_iff.
  pose proof (update_dominates_other server client_clock Hnn) as Hdom.
  split.
  - intros L. rewrite increment_counter. specialize (Hdom L). case_decide; lia.
  - apply ahead_iff. exists (node_id server).
    rewrite increment_counter. change (node_id (update server client_clock)) with (node_id server).
    rewrite decide_True by done. specialize (Hdom (node_id server)). lia.
Qed.

Lemma operand_raise (v : value) e :
  operand v = Raise e →
  e = ValueError ∨ (e = OverflowError ∧ ∃ z, v = JInt z ∧ float_of_int z = Raise OverflowError).
Proof.
  destruct v as [|b|z|f|s|l|d]; simpl; try discriminate.
  - destruct b; vm_compute; discriminate.
  - destruct (float_of_int z) as [f|e'] eqn:Hz; simpl; [discriminate|].
    intros [= <-]. right.
    assert (e' = OverflowError) as ->.
    { unfold float_of_int in Hz. destruct (binary_normalize _ _ _ _ _); by inversion Hz. }
    split; [done|]. by exists z.
  - destruct (float_of_str s) as [f|e'] eqn:Hs; simpl; [discriminate|].
    intros [= <-]. left.
    unfold float_of_str in Hs. repeat case_match; by inversion Hs.
Qed.

Lemma validate_operands_raise request e :
  validate_operands request = Raise e →
  e = OverflowError ∧
  ∃ d key z,
    request = JDict d ∧ (key = "x"%string ∨ key = "y"%string) ∧
    dict_get key d = Some (JInt z) ∧ float_of_int z = Raise OverflowError.
Proof.
  unfold validate_operands. destruct request as [| | | | | |d]; try discriminate.
  destruct (dict_get "x" d) as [x|] eqn:Hx; [|discriminate].
  destruct (dict_get "y" d) as [y|] eqn:Hy; [|discriminate].
  destruct (operand x) as [x_val|ex] eqn:Hox; simpl.
  - destruct (operand y) as [y_val|ey] eqn:Hoy; simpl.
    + destruct x_val, y_val; discriminate.
    + destruct (operand_raise y ey Hoy) as [->|[-> (z & -> & Hz)]]; [discriminate|].
      intros [= <-]. split; [done|]. exists d, "y"%string, z.
      split; [done|]. split; [by right|]. by split.
  - destruct (operand_raise x ex Hox) as [->|[-> (z & -> & Hz)]]; [discriminate|].
    intros [= <-]. split; [done|]. exists d, "x"%string, z.
    split; [done|]. split; [by left|]. by split.
Qed.

Lemma route_raise op request client_clock server e :
  route op request client_clock server = Raise e →
  validate_operands request = Raise e.
Proof.
  unfold route.
  destruct (validate_operands request) as [[message|[x_val y_val]]|e'];
    cbn [bind]; [discriminate| |by intros [= <-]].
  destruct (is_integer (op x_val y_val)) eqn:Hint; [|discriminate].
  destruct (int_of_integer _ Hint) as [z ->]. discriminate.
Qed.

Lemma reply_on_raise path request client_clock server e :
  reply_on path request client_clock server = Raise e →
  validate_operands request = Raise e.
Proof.
  unfold reply_on. repeat case_match; try discriminate; apply route_raise.
Qed.

Lemma reply_on_answer path request client_clock server r res vc c :
  reply_on path request client_clock server = Ok r →
  payload r = Answer res vc c →
  status r = 200 ∧ vc = clock server ∧
  causality_server_clock c = clock server ∧
  causality_client_clock c = option_map clock client_clock ∧
  relationship c =
    match client_clock with
    | Some c' => compare server c'
    | None => "no_client_clock"%string
    end.
Proof.
  unfold reply_on, route.
  assert (Hroute : ∀ op, bind (validate_operands request) (fun checked =>
      match checked with
      | inl data => Ok {| status := 400; payload := Failure data (Some (to_dict server)) |}
      | inr (x_val, y_val) =>
          bind (if is_integer (op x_val y_val)
                then bind (int_of_float (op x_val y_val)) (fun z => Ok (NInt z))
                else Ok (NFloat (op x_val y_val))) (fun result =>
          Ok {| status := 200;
                payload :=
                  Answer result (to_dict server)
                    {| causality_server_clock := to_dict server;
                       causality_client_clock := option_map to_dict client_clock;
                       relationship :=
                         match client_clock with
                         | Some c => compare server c
                         | None => "no_client_clock"
                         end |} |})
      end) = Ok r → payload r = Answer res vc c →
      status r = 200 ∧ vc = clock server ∧ causality_server_clock c = clock server ∧
      causality_client_clock c = option_map clock client_clock ∧
      relationship c = match client_clock with
                       | Some c' => compare server c'
                       | None => "no_client_clock"%string
                       end).
  { intros op.
    destruct (validate_operands request) as [[message|[x_val y_val]]|e'];
      cbn [bind]; [by intros [= <-]| |discriminate].
    destruct (is_integer (op x_val y_val)).
    - destruct (int_of_float (op x_val y_val)); cbn [bind]; [|discriminate].
      intros [= <-]. simpl. by intros [= <- <- <-].
    - cbn [bind]. intros [= <-]. simpl. by intros [= <- <- <-]. }
  destruct (String.eqb path "/add"); [apply Hroute|].
  destruct (String.eqb path "/multiply"); [apply Hroute|].
  intros [= <-]. discriminate.
Qed.

End sessions.

Lemma do_POST_owner (path : string) (request : value) (st : state) :
  node_id (server_clock (fst (do_POST path request st))) = node_id (server_clock st) ∧
  dominated (server_clock st) (server_clock (fst (do_POST path request st))) ∧
  (accepted request = true →
     counter (server_clock st) (node_id (server_clock st)) + 1
       ≤ counter (server_clock (fst (do_POST path request st))) (node_id (server_clock st)) ∧
     node_id (server_clock st) ∈ dom (clock (server_clock (fst (do_POST path request st))))).
Proof.
  destruct (accepted request) eqn:Hacc.
  - pose proof (do_POST_transaction path request st Hacc) as (Hid & Hdom & Hown & _ & Hin & _).
    cbv zeta in *. by repeat split.
  - rewrite do_POST_refused by done. cbn [fst].
    split; [done|]. split; [intros L; lia|]. discriminate.
Qed.

(** X13. Over any sequence of requests served one after the other from the
    initial state, the server clock is owned by "server" and holds no
    negative counter, and its own counter is at least the number of
    requests accepted; it is that number exactly when none of them
    carries a [vector_clock] entry. *)
Theorem handle_all_invariant (requests : list (string * value)) :
  let server := server_clock (handle_all requests initial) in
  let count :=
    Z.of_nat (length (List.filter (fun request => accepted (snd request)) requests)) in
  node_id server = "server"%string ∧
  non_negative server ∧
  count ≤ counter server "server" ∧
  (Forall (fun request => contains "vector_clock" (snd request) ≠ Ok true) requests →
     counter server "server" = count).
Proof.
  cbv zeta.
  assert (Hgen : ∀ st,
    non_negative (server_clock st) →
    let server := server_clock (handle_all requests st) in
    let count :=
      Z.of_nat (length (List.filter (fun request => accepted (snd request)) requests)) in
    let own := node_id (server_clock st) in
    node_id server = own ∧ non_negative server ∧
    counter (server_clock st) own + count ≤ counter server own ∧
    (Forall (fun request => contains "vector_clock" (snd request) ≠ Ok true) requests →
       counter server own = counter (server_clock st) own + count)).
  { induction requests as [|[path request] requests IH]; intros st Hnn; cbv zeta.
    - simpl. repeat split; try done; lia.
    - change (handle_all ((path, request) :: requests) st)
        with (handle_all requests (fst (do_POST path request st))).
      pose proof (do_POST_non_negative path request st Hnn) as Hnn'.
      specialize (IH _ Hnn'). cbv zeta in IH. destruct IH as (Hid & Hnn'' & Hle & Hexact).
      pose proof (do_POST_owner path request st) as (Hid' & Hdom & Hown).
      rewrite Hid' in Hid, Hle, Hexact.
      cbn [List.filter snd]. split; [done|]. split; [done|].
      destruct (accepted request) eqn:Hacc.
      + destruct (Hown eq_refl) as [Hown' _]. cbn [length]. split; [lia|].
        intros Hno. apply Forall_cons in Hno as [Hno1 Hno]. simpl in Hno1.
        rewrite (Hexact Hno).
        destruct (do_POST_accepted path request st Hacc) as (has & Hhas & _).
        destruct has; [done|].
        rewrite (do_POST_own_counter_exact path request st Hacc Hhas).
        rewrite increment_counter, decide_True by done. lia.
      + specialize (Hdom (node_id (server_clock st))). split; [lia|].
        intros Hno. apply Forall_cons in Hno as [_ Hno]. rewrite (Hexact Hno).
        by rewrite do_POST_refused. }
  destruct (Hgen initial initial_non_negative) as (Hid & Hnn & Hle & Hexact).
  cbv zeta in *. change (node_id (server_clock initial)) with "server"%string in *.
  change (counter (server_clock initial) "server") with 0 in *.
  split; [done|]. split; [done|]. split; [lia|]. intros Hno. rewrite (Hexact Hno). lia.
Qed.

Lemma handle_all_invariant_witness :
  counter (server_clock (handle_all
    [("/add"%string, JDict operands); ("/"%string, JNull); ("/none"%string, JStr "x")]
    initial)) "server" = 2.
Proof.
  apply (proj2 (proj2 (proj2 (handle_all_invariant
    [("/add"%string, JDict operands); ("/"%string, JNull); ("/none"%string, JStr "x")])))).
  repeat constructor; vm_compute; discriminate.
Defined.

(** X14. On a server clock without a negative counter, as it is after any
    sequence of requests, the relationship of an answer is 'happens-after'
    whenever a client clock was imported, and 'no_client_clock' otherwise:
    the handler never answers 'happens-before', 'equal' or 'concurrent',
    whatever the client's clock holds. *)
Theorem answer_relationship (path : string) (request : value) (st : state)
    (r : response) (res : number) (vc : gmap string Z) (c : causality) :
  non_negative (server_clock st) →
  snd (do_POST path request st) = Ok r →
  payload r = Answer res vc c →
  status r = 200 ∧
  vc = clock (server_clock (fst (do_POST path request st))) ∧
  relationship c =
    match causality_client_clock c with
    | Some _ => "happens-after"%string
    | None => "no_client_clock"%string
    end.
Proof.
  intros Hnn Hr Hp.
  destruct (accepted request) eqn:Hacc.
  - destruct (do_POST_accepted path request st Hacc) as (has & _ & Hpost).
    rewrite Hpost in Hr |- *. cbv zeta in Hr |- *. cbn [fst snd server_clock] in Hr |- *.
    pose proof (reply_on_answer _ _ _ _ _ _ _ _ Hr Hp) as (Hst & Hvc & _ & Hcc & Hrel).
    split; [done|]. split; [done|]. rewrite Hrel, Hcc.
    destruct has; cbn [fst snd] in *; [|done].
    unfold receive_clock in *.
    destruct (bind (getitem request "vector_clock") _) as [cc|e];
      cbn [fst snd server_clock option_map] in *; [|done].
    by apply merged_incremented_after.
  - rewrite do_POST_refused in Hr by done. cbn [snd] in Hr.
    destruct (truthy request); [discriminate|]. injection Hr as <-. discriminate.
Qed.

Lemma answer_relationship_witness :
  ∃ r res vc c,
    snd (do_POST "/add" (request_with (JDict [("server"%string, JInt 9)])) initial) = Ok r ∧
    payload r = Answer res vc c ∧
    relationship c = "happens-after"%string.
Proof.
  eexists _, _, _, _. split; [vm_compute; reflexivity|]. split; [reflexivity|].
  exact (proj2 (proj2 (answer_relationship "/add"
    (request_with (JDict [("server"%string, JInt 9)])) initial _ _ _ _
    initial_non_negative ltac:(vm_compute; reflexivity) eq_refl))).
Defined.

(** X15. The server's own counter after a request with an imported clock
    is one more than the greater of its value before and the value the
    client sent under the server's label, if any: a client that sends an
    entry for "server" sets the server's own counter. Without an imported
    clock it is one more than before. *)
Theorem do_POST_own_counter (path : string) (d : list (string * value)) (st : state) :
  let own := node_id (server_clock st) in
  let after := counter (server_clock (fst (do_POST path (JDict d) st))) own in
  (∀ v client_clock,
     dict_get "vector_clock" d = Some v →
     from_dict v "client" = Ok client_clock →
     after =
       match clock client_clock !! own with
       | Some sent_own => Z.max (counter (server_clock st) own) sent_own + 1
       | None => counter (server_clock st) own + 1
       end) ∧
  (∀ v e,
     dict_get "vector_clock" d = Some v →
     from_dict v "client" = Raise e →
     after = counter (server_clock st) own + 1) ∧
  (d ≠ [] → dict_get "vector_clock" d = None →
     after = counter (server_clock st) own + 1).
Proof.
  cbv zeta. split; [|split].
  - intros v cc Hget Hok.
    assert (Hd : d ≠ []) by (by destruct d).
    rewrite (do_POST_dict path d st Hd). cbv zeta. cbn [fst server_clock].
    unfold dict_has, receive_clock, getitem. rewrite Hget. cbn [bind]. rewrite Hok.
    cbn [snd server_clock]. rewrite increment_counter.
    change (node_id (update (server_clock st) cc)) with (node_id (server_clock st)).
    rewrite decide_True by done. rewrite update_counter.
    by destruct (clock cc !! node_id (server_clock st)).
  - intros v e Hget Hfail.
    assert (Hd : d ≠ []) by (by destruct d).
    rewrite (do_POST_dict path d st Hd). cbv zeta. cbn [fst server_clock].
    unfold dict_has, receive_clock, getitem. rewrite Hget. cbn [bind]. rewrite Hfail.
    cbn [snd server_clock]. rewrite increment_counter. by rewrite decide_True.
  - intros Hd Hget.
    rewrite (do_POST_dict path d st Hd). cbv zeta. cbn [fst server_clock].
    unfold dict_has. rewrite Hget. cbn [snd]. rewrite increment_counter.
    by rewrite decide_True.
Qed.

Lemma do_POST_own_counter_witness :
  counter (server_clock (fst (do_POST "/add"
    (request_with (JDict [("server"%string, JInt 9)])) initial))) "server" = 10 ∧
  counter (server_clock (fst (do_POST "/add" (request_with JNull) initial))) "server" = 1 ∧
  counter (server_clock (fst (do_POST "/add" (JDict operands) initial))) "server" = 1.
Proof.
  split; [|split].
  - exact (proj1 (do_POST_own_counter "/add"
      (operands ++ [("vector_clock"%string, JDict [("server"%string, JInt 9)])]) initial)
      (JDict [("server"%string, JInt 9)])
      {| node_id := "client"; clock := <["server"%string := 9]> ∅ |} eq_refl eq_refl).
  - exact (proj1 (proj2 (do_POST_own_counter "/add"
      (operands ++ [("vector_clock"%string, JNull)]) initial))
      JNull AttributeError eq_refl eq_refl).
  - exact (proj2 (proj2 (do_POST_own_counter "/add" operands initial))
      ltac:(discriminate) eq_refl).
Defined.

Lemma forallb_false_elem (f : Z → bool) (l : list Z) :
  forallb f l = false → ∃ z, z ∈ l ∧ f z = false.
Proof.
  induction l as [|x l IH]; simpl; [discriminate|].
  destruct (f x) eqn:Hx; simpl.
  - intros Hl. destruct (IH Hl) as (z & Hz & Hfz). exists z.
    split; [by apply list_elem_of_further|done].
  - intros _. exists x. split; [apply list_elem_of_here|done].
Qed.

Lemma json_response_raise (r : response) (e : exn) :
  json_response r = Raise e →
  e = ValueError ∧ ∃ z, z ∈ body_ints (payload r) ∧ 10 ^ max_str_digits ≤ Z.abs z.
Proof.
  unfold json_response.
  destruct (forallb encodable (body_ints (payload r))) eqn:Hall; [discriminate|].
  intros [= <-]. split; [done|].
  destruct (forallb_false_elem _ _ Hall) as (z & Hz & Hbig). exists z. split; [done|].
  unfold encodable in Hbig. by apply Z.ltb_ge in Hbig.
Qed.

(** X16. The handler, [json_response] included and the failures of the
    connection aside, raises in three cases only. It raises [TypeError] on a body that is a number other than zero
    or [True], before touching its state. It raises [OverflowError], which
    [validate_operands] does not catch, when the 'x' or 'y' operand on
    /add or /multiply is an int too large for a float. It raises
    [ValueError] from [json.dumps] when the reply it has built holds an
    int of more than 4300 digits. In the last two cases the clock
    transaction is done by then: the server clock has advanced although
    no reply is sent. *)
Theorem do_POST_raises (path : string) (request : value) (st : state) (e : exn) :
  snd (do_POST_sent path request st) = Raise e →
  fst (do_POST_sent path request st) = fst (do_POST path request st) ∧
  ((e = TypeError ∧ accepted request = false ∧ fst (do_POST_sent path request st) = st) ∨
   (e = OverflowError ∧ accepted request = true ∧
    (path = "/add"%string ∨ path = "/multiply"%string) ∧
    fst (do_POST_sent path request st) ≠ st ∧
    ∃ d key z,
      request = JDict d ∧ (key = "x"%string ∨ key = "y"%string) ∧
      dict_get key d = Some (JInt z) ∧ float_of_int z = Raise OverflowError) ∨
   (e = ValueError ∧ accepted request = true ∧
    fst (do_POST_sent path request st) ≠ st ∧
    ∃ r z,
      snd (do_POST path request st) = Ok r ∧
      z ∈ body_ints (payload r) ∧ 10 ^ max_str_digits ≤ Z.abs z)).
Proof.
  unfold do_POST_sent.
  destruct (do_POST path request st) as [st' reply] eqn:Hpost. cbn [fst snd].
  intros Hraise. split; [done|].
  assert (Hst : st' = fst (do_POST path request st)) by (by rewrite Hpost).
  assert (Hreply : reply = snd (do_POST path request st)) by (by rewrite Hpost).
  destruct (accepted request) eqn:Hacc.
  - assert (Hchanged : st' ≠ st).
    { intros Hsame. rewrite Hst in Hsame.
      pose proof (do_POST_transaction path request st Hacc) as (_ & _ & Hlt & _).
      cbv zeta in Hlt. rewrite Hsame in Hlt. lia. }
    destruct reply as [r|e'] eqn:Hr; cbn [bind] in Hraise.
    + right. right. apply json_response_raise in Hraise as [-> (z & Hz & Hbig)].
      split; [done|]. split; [done|]. split; [done|]. by exists r, z.
    + injection Hraise as <-. right. left.
      destruct (do_POST_accepted path request st Hacc) as (has & _ & Hdo).
      rewrite Hdo in Hreply. cbv zeta in Hreply. cbn [snd] in Hreply. symmetry in Hreply.
      assert (Hpath : path = "/add"%string ∨ path = "/multiply"%string).
      { unfold reply_on in Hreply.
        destruct (String.eqb_spec path "/add"); [by left|].
        destruct (String.eqb_spec path "/multiply"); [by right|discriminate]. }
      apply reply_on_raise, validate_operands_raise in Hreply as [-> Hoperand].
      done.
  - left. rewrite do_POST_refused in Hpost by done. injection Hpost as <- <-.
    destruct (truthy request); cbn [bind] in Hraise.
    + by injection Hraise as <-.
    + discriminate.
Qed.

(** The three exceptions at work: a number as body, an operand of 309
    digits, and a request served from a state whose own counter has 4301
    digits. *)
Lemma do_POST_raises_witness :
  snd (do_POST_sent "/add" (JInt 7) initial) = Raise TypeError ∧
  (snd (do_POST_sent "/add"
          (JDict [("x"%string, JInt (2 ^ 1024)); ("y"%string, JInt 1)]) initial)
     = Raise OverflowError ∧
   fst (do_POST_sent "/add"
          (JDict [("x"%string, JInt (2 ^ 1024)); ("y"%string, JInt 1)]) initial)
     ≠ initial) ∧
  (snd (do_POST_sent "/add" (JDict operands) worn) = Raise ValueError ∧
   fst (do_POST_sent "/add" (JDict operands) worn) ≠ worn).
Proof.
  assert (H1 : snd (do_POST_sent "/add"
            (JDict [("x"%string, JInt (2 ^ 1024)); ("y"%string, JInt 1)]) initial)
          = Raise OverflowError) by (vm_compute; reflexivity).
  assert (H2 : snd (do_POST_sent "/add" (JDict operands) worn) = Raise ValueError)
    by (vm_compute; reflexivity).
  split; [vm_compute; reflexivity|]. split.
  - split; [exact H1|].
    destruct (proj2 (do_POST_raises _ _ _ _ H1))
      as [(Hno & _)|[(_ & _ & _ & Hchanged & _)|(Hno & _)]];
      [discriminate Hno|exact Hchanged|discriminate Hno].
  - split; [exact H2|].
    destruct (proj2 (do_POST_raises _ _ _ _ H2))
      as [(Hno & _)|[(Hno & _)|(_ & _ & Hchanged & _)]];
      [discriminate Hno|discriminate Hno|exact Hchanged].
Defined.

(** X17. A body that is a JSON array or string and is not empty passes the
    first test of the handler. On /add and /multiply it is rejected with
    status 400 and 'Invalid JSON body' only after the server's own counter
    has been incremented; nothing is merged, and the handler prints a
    [TypeError] when "vector_clock" is an element of the array or a part
    of the string. *)
Theorem do_POST_array_or_string (path : string) (request : value) (st : state) :
  path = "/add"%string ∨ path = "/multiply"%string →
  truthy request = true →
  (∃ l, request = JList l) ∨ (∃ s, request = JStr s) →
  ∃ has_clock,
    contains "vector_clock" request = Ok has_clock ∧
    do_POST path request st =
      ({| server_clock := increment (server_clock st) None;
          printed := printed st ++ (if has_clock then [TypeError] else []) |},
       Ok {| status := 400;
             payload :=
               Failure "Invalid JSON body"
                 (Some (clock (increment (server_clock st) None))) |}).
Proof.
  intros Hpath Htruthy Hshape.
  assert (Hkind : (∃ has, contains "vector_clock" request = Ok has) ∧
                  getitem request "vector_clock" = Raise TypeError ∧
                  validate_operands request = Ok (inl "Invalid JSON body"%string)).
  { destruct Hshape as [[l ->]|[s ->]]; simpl; eauto. }
  destruct Hkind as ((has & Hhas) & Hget & Hvalid).
  assert (Hacc : accepted request = true).
  { unfold accepted. by rewrite Htruthy, Hhas. }
  destruct (do_POST_accepted path request st Hacc) as (has' & Hhas' & ->).
  rewrite Hhas in Hhas'. injection Hhas' as <-. exists has. split; [done|].
  cbv zeta. unfold receive_clock. rewrite Hget. cbn [bind].
  assert (Hreply : ∀ cc server, reply_on path request cc server =
            Ok {| status := 400;
                  payload := Failure "Invalid JSON body" (Some (clock server)) |}).
  { intros cc server. unfold reply_on.
    destruct Hpath as [-> | ->]; cbn [String.eqb Ascii.eqb Bool.eqb];
      by apply route_rejected. }
  rewrite Hreply. destruct has; cbn [fst snd server_clock printed]; [done|].
  by rewrite app_nil_r.
Qed.

Lemma do_POST_array_or_string_witness :
  do_POST "/add" (JList [JStr "vector_clock"]) initial =
    ({| server_clock := increment (server_clock initial) None;
        printed := [TypeError] |},
     Ok {| status := 400;
           payload :=
             Failure "Invalid JSON body"
               (Some (clock (increment (server_clock initial) None))) |}).
Proof.
  destruct (do_POST_array_or_string "/add" (JList [JStr "vector_clock"]) initial
    (or_introl eq_refl) eq_refl (or_introl (ex_intro _ _ eq_refl)))
    as (has & Hhas & Hpost).
  injection Hhas as <-. exact Hpost.
Defined.

(** ** The client *)

Section calls.

Implicit Types (self : client.RpcClient) (payload d : list (string * value)).

Lemma setitem_get key v d : dict_get key (client.setitem key v d) = Some v.
Proof.
  induction d as [|[k w] d IH]; simpl.
  - by rewrite String.eqb_refl.
  - destruct (String.eqb k key) eqn:Hk; simpl; by rewrite Hk.
Qed.

Lemma setitem_get_other key v d k :
  k ≠ key → dict_get k (client.setitem key v d) = dict_get k d.
Proof.
  intros Hne. induction d as [|[k' w] d IH]; simpl.
  - destruct (String.eqb_spec key k); [congruence|done].
  - destruct (String.eqb_spec k' key) as [->|Hk]; simpl.
    + destruct (String.eqb_spec key k); [congruence|done].
    + by rewrite IH.
Qed.

Lemma setitem_not_empty key v d : client.setitem key v d ≠ [].
Proof. destruct d as [|[k w] d]; simpl; [done|]. by destruct (String.eqb k key). Qed.



(** The client's clock after it has merged the clock of a server that
    had merged its own. *)
Lemma update_back (mine server : VectorClock) (owner : string) :
  non_negative server →
  clock (update mine {| node_id := owner;
                        clock := clock (increment (update server mine) None) |})
    = clock (increment (update server mine) None).
Proof.
  intros Hnn. apply map_eq. intros L. rewrite update_lookup. cbn [clock].
  set (server' := increment (update server mine) None).
  assert (Hdom : dominated mine server').
  { intros K. unfold server'. rewrite increment_counter.
    pose proof (update_dominates_other server mine Hnn K). case_decide; lia. }
  destruct (clock server' !! L) as [v|] eqn:Hv.
  - f_equal. specialize (Hdom L). rewrite (counter_present _ _ _ Hv) in Hdom. lia.
  - destruct (clock mine !! L) as [w|] eqn:Hw; [exfalso|done].
    assert (Hin : L ∈ dom (clock server')).
    { unfold server'. rewrite increment_dom, update_dom.
      apply elem_of_union. right. apply elem_of_union. right. by apply elem_of_dom_2 in Hw. }
    apply elem_of_dom in Hin as [? ?]. congruence.
Qed.

End calls.

(** X18. The request that [call_rpc] sends is a dict whose [vector_clock]
    entry is the client's clock after its increment, in place of any entry
    of that name in the caller's payload; the other entries are the
    caller's. The handler never refuses it before the clock transaction,
    imports the clock exactly, and validates the operands as it would
    those of the caller's payload. *)
Theorem prepare_request (self : client.RpcClient) (payload : list (string * value)) :
  let sent_clock := increment (client.vector_clock self) None in
  client.vector_clock (fst (client.prepare self payload)) = sent_clock ∧
  client.client_id (fst (client.prepare self payload)) = client.client_id self ∧
  ∃ d,
    snd (client.prepare self payload) = JDict d ∧
    dict_get "vector_clock" d = Some (wire.of_clock (clock sent_clock)) ∧
    (∀ key, key ≠ "vector_clock"%string → dict_get key d = dict_get key payload) ∧
    accepted (JDict d) = true ∧
    from_dict (wire.of_clock (clock sent_clock)) "client"
      = Ok {| node_id := "client"; clock := clock sent_clock |} ∧
    validate_operands (JDict d) = validate_operands (JDict payload).
Proof.
  cbv zeta. split; [done|]. split; [done|].
  eexists. split; [reflexivity|]. unfold to_dict. cbn [fst client.vector_clock].
  split; [apply setitem_get|]. split; [intros key Hkey; by apply setitem_get_other|].
  split.
  - unfold accepted. cbn [contains raises negb]. rewrite andb_true_r. simpl.
    pose proof (setitem_not_empty "vector_clock"
      (wire.of_clock (clock (increment (client.vector_clock self) None))) payload).
    by destruct (client.setitem _ _ _).
  - split; [apply from_dict_of_clock|].
    unfold validate_operands. by rewrite !setitem_get_other.
Qed.







(** ** The simulation of demo_vector_clocks.py *)

Section simulation.

Import demo_vector_clocks.

Implicit Types (clocks : gmap string VectorClock) (event : list string).

(** X22. A [send_to] event between two known nodes increments the sender's
    own counter and merges the sender's clock so incremented into the
    receiver's; with a receiver that held no negative counter, the
    receiver's clock then compares 'equal' or 'happens-after' with the
    sender's. The clocks of the other nodes are untouched, and a node that
    sends to itself does what an [increment] event does. *)
Theorem send_to_event clocks (sender receiver : string) (s r : VectorClock) :
  clocks !! sender = Some s →
  clocks !! receiver = Some r →
  (sender ≠ receiver →
     ∃ clocks',
       apply_event clocks [sender; "send_to"%string; receiver] = Ok clocks' ∧
       clocks' !! sender = Some (increment s None) ∧
       clocks' !! receiver = Some (update r (increment s None)) ∧
       (∀ node, node ≠ sender → node ≠ receiver → clocks' !! node = clocks !! node) ∧
       (non_negative r →
          compare (update r (increment s None)) (increment s None) = "equal"%string ∨
          compare (update r (increment s None)) (increment s None) = "happens-after"%string)) ∧
  apply_event clocks [sender; "send_to"%string; sender]
    = apply_event clocks [sender; "increment"%string].
Proof.
  intros Hs Hr. split.
  - intros Hne. eexists. unfold apply_event. cbn [String.eqb Ascii.eqb Bool.eqb].
    rewrite Hs. rewrite lookup_insert_ne by done. rewrite Hr.
    split; [reflexivity|]. split; [by rewrite lookup_insert_ne, lookup_insert_eq|].
    split; [apply lookup_insert_eq|]. split.
    + intros node H1 H2. by rewrite !lookup_insert_ne.
    + intros Hnn. by apply compare_dominating, update_dominates_other.
  - unfold apply_event. cbn [String.eqb Ascii.eqb Bool.eqb].
    rewrite Hs, lookup_insert_eq. f_equal.
    rewrite update_self. apply insert_insert_eq.
Qed.

End simulation.

Section simulation_runs.

Import demo_vector_clocks.

Implicit Types (clocks : gmap string VectorClock) (event : list string).

Lemma kept_refl clocks : kept clocks clocks.
Proof.
  split; [done|]. intros node c Hc. exists c. repeat split; try done. intros L; lia.
Qed.

Lemma kept_trans clocks (clocks1 clocks2 : gmap string VectorClock) :
  kept clocks clocks1 → kept clocks1 clocks2 → kept clocks clocks2.
Proof.
  intros [Hd1 H1] [Hd2 H2]. split; [congruence|].
  intros node c Hc. destruct (H1 node c Hc) as (c1 & Hc1 & Hid1 & Hdom1 & Hnn1).
  destruct (H2 node c1 Hc1) as (c2 & Hc2 & Hid2 & Hdom2 & Hnn2).
  exists c2. split; [done|]. split; [congruence|]. split; [|tauto].
  intros L. specialize (Hdom1 L). specialize (Hdom2 L). lia.
Qed.

Lemma kept_insert clocks node (c c' : VectorClock) :
  clocks !! node = Some c →
  node_id c' = node_id c → dominated c c' → (non_negative c → non_negative c') →
  kept clocks (<[node := c']> clocks).
Proof.
  intros Hc Hid Hdom Hnn. split.
  - rewrite dom_insert_L. apply elem_of_dom_2 in Hc.
    apply subseteq_union_1_L. by apply singleton_subseteq_l.
  - intros n x Hx. destruct (decide (node = n)) as [->|Hne].
    + rewrite lookup_insert_eq. exists c'. rewrite Hc in Hx. injection Hx as <-.
      by repeat split.
    + rewrite lookup_insert_ne by done. exists x. repeat split; try done. intros L; lia.
Qed.

Lemma increment_dominates (c : VectorClock) : dominated c (increment c None).
Proof. intros L. rewrite increment_counter. case_decide; lia. Qed.

Lemma apply_event_kept clocks event (clocks' : gmap string VectorClock) :
  apply_event clocks event = Ok clocks' → kept clocks clocks'.
Proof.
  unfold apply_event.
  destruct event as [|n1 [|action [|n2 [|? ?]]]];
    try (intros [= <-]; apply kept_refl).
  - destruct (String.eqb action "increment"); [|intros [= <-]; apply kept_refl].
    destruct (clocks !! n1) as [c|] eqn:Hc; [|discriminate]. intros [= <-].
    apply (kept_insert clocks n1 c); [done|done|apply increment_dominates|].
    apply increment_non_negative.
  - destruct (String.eqb action "send_to"); [|intros [= <-]; apply kept_refl].
    destruct (clocks !! n1) as [c|] eqn:Hc; [|discriminate].
    destruct (<[n1 := increment c None]> clocks !! n2) as [r|] eqn:Hr; [|discriminate].
    intros [= <-].
    apply (kept_trans _ (<[n1 := increment c None]> clocks)).
    + apply (kept_insert clocks n1 c); [done|done|apply increment_dominates|].
      apply increment_non_negative.
    + apply (kept_insert _ n2 r); [done|done| |apply update_non_negative].
      intros L. apply update_counter_le.
Qed.

Lemma apply_event_raise clocks event e :
  apply_event clocks event = Raise e →
  e = KeyError ∧ ∃ node, node ∈ event ∧ clocks !! node = None.
Proof.
  unfold apply_event.
  destruct event as [|n1 [|action [|n2 [|? ?]]]]; try discriminate.
  - destruct (String.eqb action "increment"); [|discriminate].
    destruct (clocks !! n1) as [c|] eqn:Hc; [discriminate|]. intros [= <-].
    split; [done|]. exists n1. split; [apply list_elem_of_here|done].
  - destruct (String.eqb action "send_to"); [|discriminate].
    destruct (clocks !! n1) as [c|] eqn:Hc.
    + destruct (<[n1 := increment c None]> clocks !! n2) as [r|] eqn:Hr; [discriminate|].
      intros [= <-]. split; [done|]. exists n2. split.
      * do 2 apply list_elem_of_further. apply list_elem_of_here.
      * destruct (decide (n1 = n2)) as [->|Hne].
        -- by rewrite lookup_insert_eq in Hr.
        -- by rewrite lookup_insert_ne in Hr.
    + intros [= <-]. split; [done|]. exists n1. split; [apply list_elem_of_here|done].
Qed.

End simulation_runs.

Lemma send_to_event_witness :
  let clocks := demo_vector_clocks.initial_clocks ["node1"; "node2"; "node3"]%string in
  demo_vector_clocks.apply_event clocks ["node1"; "send_to"; "node1"]%string
    = demo_vector_clocks.apply_event clocks ["node1"; "increment"]%string.
Proof.
  exact (proj2 (send_to_event
    (demo_vector_clocks.initial_clocks ["node1"; "node2"; "node3"]%string)
    "node1" "node1" _ _ eq_refl eq_refl)).
Defined.

(** X23. A run of events that ends without an exception keeps the nodes
    and the owner of every clock, decreases no counter of any clock, and
    leaves a clock without a negative counter so. The only exception of a
    run is [KeyError]. *)
Theorem run_events_keeps (clocks : gmap string VectorClock) (events : list (list string)) :
  (∀ clocks', demo_vector_clocks.run_events clocks events = Ok clocks' →
     dom clocks' = dom clocks ∧
     ∀ node c, clocks !! node = Some c →
       ∃ c', clocks' !! node = Some c' ∧ node_id c' = node_id c ∧ dominated c c' ∧
             (non_negative c → non_negative c')) ∧
  (∀ e, demo_vector_clocks.run_events clocks events = Raise e → e = KeyError).
Proof.
  revert clocks. induction events as [|event events IH]; intros clocks; simpl.
  - split; [|discriminate]. intros clocks' [= <-]. apply kept_refl.
  - destruct (demo_vector_clocks.apply_event clocks event) as [clocks1|e1] eqn:H1; simpl.
    + apply apply_event_kept in H1. destruct (IH clocks1) as [Hok Hraise].
      split; [|exact Hraise]. intros clocks' H2.
      exact (kept_trans _ _ _ H1 (Hok clocks' H2)).
    + split; [discriminate|]. intros e [= <-].
      by apply apply_event_raise in H1 as [-> _].
Qed.

Lemma run_events_keeps_witness :
  ∃ clocks',
    demo_vector_clocks.run_events
      (demo_vector_clocks.initial_clocks ["node1"; "node2"; "node3"]%string)
      demo_vector_clocks.events = Ok clocks' ∧
    dom clocks' = dom (demo_vector_clocks.initial_clocks ["node1"; "node2"; "node3"]%string).
Proof.
  eexists. split; [vm_compute; reflexivity|].
  exact (proj1 (proj1 (run_events_keeps
    (demo_vector_clocks.initial_clocks ["node1"; "node2"; "node3"]%string)
    demo_vector_clocks.events) _ ltac:(vm_compute; reflexivity))).
Defined.

(** X24. An event raises [KeyError] when it is an 'increment' or a
    'send_to' that names a node without a clock, and only then; an event
    of another length or with another action changes nothing. *)
Theorem apply_event_errors (clocks : gmap string VectorClock) (event : list string) :
  (∀ e, demo_vector_clocks.apply_event clocks event = Raise e →
     e = KeyError ∧ ∃ node, node ∈ event ∧ clocks !! node = None) ∧
  (∀ node, clocks !! node = None →
     demo_vector_clocks.apply_event clocks [node; "increment"%string] = Raise KeyError ∧
     ∀ other,
       demo_vector_clocks.apply_event clocks [node; "send_to"%string; other] = Raise KeyError ∧
       (other ≠ node →
          demo_vector_clocks.apply_event clocks [other; "send_to"%string; node]
            = Raise KeyError)) ∧
  (length event ≠ 2%nat → length event ≠ 3%nat →
     demo_vector_clocks.apply_event clocks event = Ok clocks) ∧
  (∀ node action other,
     action ≠ "increment"%string → action ≠ "send_to"%string →
     demo_vector_clocks.apply_event clocks [node; action] = Ok clocks ∧
     demo_vector_clocks.apply_event clocks [node; action; other] = Ok clocks).
Proof.
  split; [intros e; apply apply_event_raise|]. split; [|split].
  - intros node Hnone. unfold demo_vector_clocks.apply_event.
    cbn [String.eqb Ascii.eqb Bool.eqb]. rewrite Hnone. split; [done|].
    intros other. split; [done|]. intros Hne.
    destruct (clocks !! other) as [c|]; [|done].
    by rewrite lookup_insert_ne, Hnone.
  - intros H2 H3. unfold demo_vector_clocks.apply_event.
    destruct event as [|n1 [|action [|n2 [|? ?]]]]; simpl in *; done.
  - intros node action other Hi Hs. unfold demo_vector_clocks.apply_event.
    apply String.eqb_neq in Hi. apply String.eqb_neq in Hs. split.
    + by rewrite Hi.
    + by rewrite Hs.
Qed.

Lemma apply_event_errors_witness :
  demo_vector_clocks.apply_event
    (demo_vector_clocks.initial_clocks ["node1"; "node2"]%string)
    ["node1"; "send_to"; "node3"]%string = Raise KeyError.
Proof.
  apply (proj2 (proj2 (proj1 (proj2 (apply_event_errors
    (demo_vector_clocks.initial_clocks ["node1"; "node2"]%string)
    ["node1"; "send_to"; "node3"]%string)) "node3"%string eq_refl) "node1"%string)).
  discriminate.
Defined.

(** X25. One exchange of the simulation, on a server clock without a
    negative counter: the client ends with the very counters of the server
    clock (they are [==] and compare 'equal'), the server clock is
    'happens-after' the clock the client had, and every clock that the
    server clock dominated before the exchange compares 'happens-before'
    with the client's clock after it. *)
Theorem exchange_propagates (server client_clock third : VectorClock) :
  non_negative server →
  let server' := fst (demo_vector_clocks.exchange server client_clock) in
  let client' := snd (demo_vector_clocks.exchange server client_clock) in
  clock client' = clock server' ∧
  __eq__ client' server' = true ∧
  compare client' server' = "equal"%string ∧
  compare server' client_clock = "happens-after"%string ∧
  (dominated third server → compare third client' = "happens-before"%string).
Proof.
  intros Hnn. cbv zeta. unfold demo_vector_clocks.exchange. cbn [fst snd].
  set (sent := increment client_clock None).
  set (server' := increment (update server sent) None).
  assert (Hback : clock (update sent server') = clock server').
  { destruct server' as [n m] eqn:Hs. rewrite <- Hs.
    replace (update sent server') with (update sent {| node_id := n; clock := clock server' |}).
    - unfold server'. by apply update_back.
    - by rewrite Hs. }
  assert (Hafter : compare server' sent = "happens-after"%string)
    by (by apply merged_incremented_after).
  split; [exact Hback|]. split; [by apply bool_decide_eq_true|].
  split; [apply compare_equal_iff; intros L; unfold counter; by rewrite Hback|].
  split.
  - apply compare_after_iff in Hafter as [Hdom Hahead]. apply compare_after_iff. split.
    + intros L. specialize (Hdom L). pose proof (increment_dominates client_clock L).
      fold sent in H. lia.
    + apply ahead_iff. apply ahead_iff in Hahead as (L & Hlt). exists L.
      pose proof (increment_dominates client_clock L). fold sent in H. lia.
  - intros Hthird.
    rewrite (compare_ext third third (update sent server') server' eq_refl Hback).
    apply compare_before_iff.
    assert (Hgrow : dominated server server').
    { intros L. unfold server'. rewrite increment_counter.
      pose proof (update_counter_le server sent L). case_decide; lia. }
    split.
    + intros L. specialize (Hthird L). specialize (Hgrow L). lia.
    + apply ahead_iff. exists (node_id server). unfold server'.
      rewrite increment_counter.
      change (node_id (update server sent)) with (node_id server).
      rewrite decide_True by done.
      pose proof (update_counter_le server sent (node_id server)).
      specialize (Hthird (node_id server)). lia.
Qed.

Lemma exchange_propagates_witness :
  compare clock_A (snd (demo_vector_clocks.exchange clock_B (__init__ "C" None)))
    = "happens-before"%string.
Proof.
  assert (Hnn : non_negative clock_B).
  { apply (bool_decide_unpack (non_negative clock_B)). vm_compute. exact I. }
  apply (proj2 (proj2 (proj2 (proj2
    (exchange_propagates clock_B (__init__ "C" None) clock_A Hnn))))).
  apply aheadb_false. vm_compute. reflexivity.
Defined.

Lemma increment_advances_witness :
  clock (increment clock_A (Some "C"%string)) !! "A"%string = clock clock_A !! "A"%string ∧
  clock (increment clock_A (Some "C"%string)) !! "C"%string = Some 1.
Proof.
  split.
  - apply (proj1 (proj2 (increment_advances clock_A (Some "C"%string)))). discriminate.
  - exact (proj1 (increment_advances clock_A (Some "C"%string))).
Defined.

Lemma prepare_request_witness :
  ∃ d,
    snd (client.prepare (client.__init__ "client1")
           (operands ++ [("vector_clock"%string, JStr "mine")])) = JDict d ∧
    dict_get "y" d = Some (JInt 2).
Proof.
  destruct (proj2 (proj2 (prepare_request (client.__init__ "client1")
    (operands ++ [("vector_clock"%string, JStr "mine")]))))
    as (d & Hd & _ & Hother & _).
  exists d. split; [exact Hd|]. rewrite (Hother "y"%string); [reflexivity|discriminate].
Defined.



Lemma float_is_int (f : spec_float) (z : Z) :
  is_integer f = true → int_of_float f = Ok z → float_is f z.
Proof.
  destruct f as [s|s| |s m e]; simpl; try discriminate.
  - by intros _ [= <-].
  - destruct (Z.leb_spec 0 e) as [Hpos|Hneg]; simpl.
    + intros _ [= <-]. rewrite Z.shiftl_mul_pow2 by done. destruct s; lia.
    + rewrite Z.eqb_eq, Z.land_ones by lia. intros Hexact [= <-].
      rewrite Z.shiftr_div_pow2 by lia.
      pose proof (Z.div_mod (Zpos m) (2 ^ (- e)) ltac:(apply Z.pow_nonzero; lia)) as Hdm.
      rewrite Hexact in Hdm. destruct s; lia.
Qed.

Lemma float_is_not (f : spec_float) (z : Z) :
  is_integer f = false → ¬ float_is f z.
Proof.
  destruct f as [s|s| |s m e]; simpl; try discriminate; try (intros _ []).
  destruct (Z.leb_spec 0 e) as [Hpos|Hneg]; simpl; [discriminate|].
  rewrite Z.eqb_neq, Z.land_ones by lia. intros Hrest Hz. apply Hrest.
  assert (Hm : Zpos m = (if s then - z else z) * 2 ^ (- e)) by (destruct s; lia).
  rewrite Hm. apply Z.mod_mul. apply Z.pow_nonzero; lia.
Qed.

Lemma route_result op request client_clock server r res vc c x_val y_val :
  validate_operands request = Ok (inr (x_val, y_val)) →
  route op request client_clock server = Ok r →
  payload r = Answer res vc c →
  match res with
  | NInt z => float_is (op x_val y_val) z
  | NFloat f => f = op x_val y_val ∧ ∀ z, ¬ float_is f z
  end.
Proof.
  intros Hv. unfold route. rewrite Hv. cbn [bind].
  destruct (is_integer (op x_val y_val)) eqn:Hint.
  - destruct (int_of_float (op x_val y_val)) as [z|] eqn:Hz; cbn [bind]; [|discriminate].
    intros [= <-]. simpl. intros [= <- _ _]. by apply float_is_int.
  - cbn [bind]. intros [= <-]. simpl. intros [= <- _ _]. split; [done|].
    intros z. by apply float_is_not.
Qed.

(** X27. The result of an answer loses nothing of the float that the
    route has computed, the sum of the operands on /add and their product
    on /multiply: it is an int exactly when that float is a whole number
    (a zero of either sign included), and is then that number; it is the
    float itself when the float is infinite, not a number or has a
    fractional part. *)
Theorem do_POST_result_exact (path : string) (request : value) (st : state)
    (r : response) (res : number) (vc : gmap string Z) (c : causality)
    (x_val y_val : spec_float) :
  snd (do_POST path request st) = Ok r →
  payload r = Answer res vc c →
  validate_operands request = Ok (inr (x_val, y_val)) →
  let computed :=
    if String.eqb path "/add" then SFadd prec emax x_val y_val
    else SFmul prec emax x_val y_val in
  (path = "/add"%string ∨ path = "/multiply"%string) ∧
  match res with
  | NInt z => float_is computed z
  | NFloat f => f = computed ∧ ∀ z, ¬ float_is f z
  end.
Proof.
  intros Hr Hp Hv. cbv zeta.
  destruct (accepted request) eqn:Hacc.
  - destruct (do_POST_accepted path request st Hacc) as (has & _ & Hpost).
    rewrite Hpost in Hr. cbv zeta in Hr. cbn [snd] in Hr. unfold reply_on in Hr.
    destruct (String.eqb_spec path "/add") as [->|Hadd].
    + split; [by left|]. exact (route_result _ _ _ _ _ _ _ _ _ _ Hv Hr Hp).
    + destruct (String.eqb_spec path "/multiply") as [->|Hmul].
      * split; [by right|]. exact (route_result _ _ _ _ _ _ _ _ _ _ Hv Hr Hp).
      * injection Hr as <-. discriminate Hp.
  - rewrite do_POST_refused in Hr by done. cbn [snd] in Hr.
    destruct (truthy request); [discriminate|]. injection Hr as <-. discriminate Hp.
Qed.

(** The products -0.0 * 3 and 1.5 * 3: the int 0 and the float 4.5. *)
Lemma do_POST_result_exact_witness :
  float_is (SFmul prec emax (S754_zero true) (S754_finite false 6755399441055744 (-51))) 0 ∧
  ∃ res vc c,
    snd (do_POST "/multiply"
           (JDict [("x"%string, JFloat (S754_zero true)); ("y"%string, JInt 3)]) initial)
      = Ok {| status := 200; payload := Answer res vc c |} ∧
    res = NInt 0.
Proof.
  assert (Hr : snd (do_POST "/multiply"
             (JDict [("x"%string, JFloat (S754_zero true)); ("y"%string, JInt 3)]) initial)
           = Ok {| status := 200;
                   payload :=
                     Answer (NInt 0) (counters [("server"%string, 1)])
                       {| causality_server_clock := counters [("server"%string, 1)];
                          causality_client_clock := None;
                          relationship := "no_client_clock" |} |})
    by (vm_compute; reflexivity).
  split.
  - exact (proj2 (do_POST_result_exact "/multiply"
      (JDict [("x"%string, JFloat (S754_zero true)); ("y"%string, JInt 3)]) initial
      _ (NInt 0) _ _ (S754_zero true) (S754_finite false 6755399441055744 (-51))
      Hr eq_refl ltac:(vm_compute; reflexivity))).
  - eexists _, _, _. split; [exact Hr|reflexivity].
Defined.
